(** * practical_3: the weather-on-a-map screen of [src/App.js]

    A shallow embedding of the [App] component: its state cells, the
    asynchronous weather fetch, the location tracker and the dialog
    handlers, together with the pieces of the JavaScript runtime the
    component leans on (IEEE-754 numbers, [Number.prototype.toFixed],
    number-to-string conversion, property access on parsed JSON). *)

From Stdlib Require Import ZArith Lia Bool List Ascii String SpecFloat.
From stdpp Require Import base decidable list strings gmap.
Import ListNotations.

Local Open Scope Z_scope.

(** ** JavaScript numbers

    A JS number is an IEEE-754 binary64 value.  [spec_float] of the
    standard library is the carrier; [prec = 53] and [emax = 1024]. *)
Module JSNumber.

Definition prec : Z := 53.
Definition emax : Z := 1024.

Definition number : Type := spec_float.

(** The number closest to the integer [z] (ties to even). *)
Definition of_Z (z : Z) : number := binary_normalize prec emax z 0 false.

(** The number closest to the fraction [p / q]: the correctly rounded
    quotient of two integers held exactly. *)
Definition of_frac (p : Z) (q : positive) : number :=
  match p with
  | Z0 => S754_zero false
  | Zpos p' => SFdiv prec emax (S754_finite false p' 0) (S754_finite false q 0)
  | Zneg p' => SFdiv prec emax (S754_finite true p' 0) (S754_finite false q 0)
  end.

(** A decimal literal [m * 10^e10] as written in source text or in JSON:
    [57.5389] is [literal 575389 (-4)]. *)
Definition literal (m : Z) (e10 : Z) : number :=
  match e10 with
  | Z0 => of_Z m
  | Zpos k => of_frac (m * 10 ^ Zpos k) 1
  | Zneg k => of_frac m (Z.to_pos (10 ^ Zpos k))
  end.

Definition is_finite (x : number) : bool :=
  match x with
  | S754_zero _ | S754_finite _ _ _ => true
  | _ => false
  end.

Definition is_negative (x : number) : bool :=
  match x with
  | S754_finite s _ _ => s
  | _ => false
  end.

(** The magnitude of a finite number as an exact fraction [(p, q)],
    [q] a power of two. *)
Definition magnitude (x : number) : Z * Z :=
  match x with
  | S754_finite _ m e =>
      match e with
      | Zneg k => (Zpos m, 2 ^ Zpos k)
      | _ => (Zpos m * 2 ^ e, 1)
      end
  | _ => (0, 1)
  end.

(** [abs_lt_1e21 x]: the magnitude of [x] is below [10^21]. *)
Definition abs_lt_1e21 (x : number) : bool :=
  let '(p, q) := magnitude x in p <? 10 ^ 21 * q.

(** *** Decimal digit strings *)

Fixpoint uint_chars (d : Decimal.uint) : list ascii :=
  match d with
  | Decimal.Nil => []
  | Decimal.D0 d' => "0"%char :: uint_chars d'
  | Decimal.D1 d' => "1"%char :: uint_chars d'
  | Decimal.D2 d' => "2"%char :: uint_chars d'
  | Decimal.D3 d' => "3"%char :: uint_chars d'
  | Decimal.D4 d' => "4"%char :: uint_chars d'
  | Decimal.D5 d' => "5"%char :: uint_chars d'
  | Decimal.D6 d' => "6"%char :: uint_chars d'
  | Decimal.D7 d' => "7"%char :: uint_chars d'
  | Decimal.D8 d' => "8"%char :: uint_chars d'
  | Decimal.D9 d' => "9"%char :: uint_chars d'
  end.

(** The decimal digits of a non-negative integer, most significant
    first, without leading zeros; ["0"] for zero. *)
Definition digits (n : Z) : list ascii :=
  match n with
  | Zpos p => uint_chars (Pos.to_uint p)
  | _ => ["0"%char]
  end.

Definition is_digit (c : ascii) : bool :=
  let n := nat_of_ascii c in (48 <=? n)%nat && (n <=? 57)%nat.

Definition zeros (n : nat) : list ascii := replicate n "0"%char.

(** *** [Number.prototype.toFixed] (ECMA-262, 21.1.3.3) *)

(** Step 11.a: the integer [n] for which [n / 10^f - x] is closest to zero,
    the larger one on a tie; [x = p / q] is non-negative. *)
Definition nearest_scaled (f : nat) (p q : Z) : Z :=
  (2 * p * 10 ^ Z.of_nat f + q) / (2 * q).

(** Steps 11.c-11.d: pad the digit string to at least [f + 1] characters
    and put the point before the last [f]. *)
Definition padded (f : nat) (m : list ascii) : list ascii :=
  if (length m <=? f)%nat then zeros (f + 1 - length m) ++ m else m.

Definition place_point (f : nat) (m : list ascii) : list ascii :=
  match f with
  | O => m
  | _ =>
      let m' := padded f m in
      let k := length m' in
      take (k - f) m' ++ "."%char :: drop (k - f) m'
  end.

(** *** [Number::toString] in radix 10 (ECMA-262, 6.1.6.1.20) *)

Definition number_eqb (x y : number) : bool :=
  match x, y with
  | S754_zero a, S754_zero b => Bool.eqb a b
  | S754_infinity a, S754_infinity b => Bool.eqb a b
  | S754_nan, S754_nan => true
  | S754_finite a m e, S754_finite b m' e' =>
      Bool.eqb a b && Pos.eqb m m' && Z.eqb e e'
  | _, _ => false
  end.

(** [p / q < 10^n]. *)
Definition below_pow10 (p q n : Z) : bool :=
  if 0 <=? n then p <? 10 ^ n * q else p * 10 ^ (- n) <? q.

(** The least [n >= lo] with [p / q < 10^n]. *)
Fixpoint decimal_exponent (fuel : nat) (lo p q : Z) : Z :=
  match fuel with
  | O => lo
  | S fuel' =>
      if below_pow10 p q lo then lo else decimal_exponent fuel' (lo + 1) p q
  end.

(** [floor (p / q / 10^j)]. *)
Definition scaled_floor (p q j : Z) : Z :=
  if 0 <=? j then p / (q * 10 ^ j) else (p * 10 ^ (- j)) / q.

(** Does the decimal [s * 10^j] read back as [x]? *)
Definition reads_back (x : number) (s j : Z) : bool :=
  number_eqb (literal s j) x.

(** [s_lo * 10^j] is at least as close to [p / q] as [(s_lo + 1) * 10^j];
    on a tie the even digit string is taken. *)
Definition lower_is_closer (p q s_lo j : Z) : bool :=
  let twice_mid := 2 * s_lo + 1 in
  let c := if 0 <=? j then Z.compare (2 * p) (twice_mid * 10 ^ j * q)
           else Z.compare (2 * p * 10 ^ (- j)) (twice_mid * q) in
  match c with
  | Lt => true
  | Eq => Z.even s_lo
  | Gt => false
  end.

(** The shortest digit string [s] (of [k] digits) and exponent [n] with
    [s * 10^(n-k)] reading back as the positive number [x = p / q]. *)
Fixpoint shortest_digits (fuel : nat) (k : Z) (x : number) (p q n0 : Z)
  : Z * Z * Z :=
  let j := n0 - k in
  let s_lo := scaled_floor p q j in
  let s_hi := s_lo + 1 in
  let lo_ok := reads_back x s_lo j in
  let hi_ok := reads_back x s_hi j in
  let hi := if s_hi =? 10 ^ k then (10 ^ (k - 1), k, n0 + 1) else (s_hi, k, n0) in
  match fuel with
  | O => (s_lo, k, n0)
  | S fuel' =>
      if lo_ok && hi_ok then
        if lower_is_closer p q s_lo j then (s_lo, k, n0) else hi
      else if lo_ok then (s_lo, k, n0)
      else if hi_ok then hi
      else shortest_digits fuel' (k + 1) x p q n0
  end.

Definition exponent_part (n : Z) : list ascii :=
  "e"%char :: (if 0 <=? n - 1 then "+"%char else "-"%char) :: digits (Z.abs (n - 1)).

Definition positive_to_chars (x : number) : list ascii :=
  let '(p, q) := magnitude x in
  let n0 := decimal_exponent 640 (-324) p q in
  let '(s, k, n) := shortest_digits 17 1 x p q n0 in
  let ds := digits s in
  if (k <=? n) && (n <=? 21) then ds ++ zeros (Z.to_nat (n - k))
  else if (0 <? n) && (n <=? 21) then
    take (Z.to_nat n) ds ++ "."%char :: drop (Z.to_nat n) ds
  else if (-6 <? n) && (n <=? 0) then
    "0"%char :: "."%char :: zeros (Z.to_nat (- n)) ++ ds
  else if k =? 1 then ds ++ exponent_part n
  else take 1 ds ++ "."%char :: drop 1 ds ++ exponent_part n.

Definition toString (x : number) : string :=
  match x with
  | S754_nan => "NaN"
  | S754_zero _ => "0"
  | S754_infinity false => "Infinity"
  | S754_infinity true => "-Infinity"
  | S754_finite false m e => string_of_list_ascii (positive_to_chars x)
  | S754_finite true m e =>
      string_of_list_ascii ("-"%char :: positive_to_chars (S754_finite false m e))
  end.

(** [x.toFixed(f)]; [None] is the RangeError for [f > 100]. *)
Definition toFixed (f : nat) (x : number) : option string :=
  if (100 <? f)%nat then None
  else if negb (is_finite x) then Some (toString x)
  else if negb (abs_lt_1e21 x) then Some (toString x)
  else
    let '(p, q) := magnitude x in
    let n := nearest_scaled f p q in
    let m := place_point f (digits n) in
    Some (string_of_list_ascii (if is_negative x then "-"%char :: m else m)).

(** *** The shape "digits, a point, exactly [f] digits" *)

(** [is_fixed f s]: [s] is an optional minus sign, one or more digits, a
    point, and exactly [f] digits. *)
Definition is_fixed (f : nat) (s : string) : bool :=
  let cs := list_ascii_of_string s in
  let body := match cs with
              | c :: r => if Ascii.eqb c "-" then r else cs
              | [] => []
              end in
  let ip := take (length body - (f + 1)) body in
  match drop (length body - (f + 1)) body with
  | c :: fp =>
      Ascii.eqb c "." && negb (length ip =? 0)%nat && forallb is_digit ip &&
      (length fp =? f)%nat && forallb is_digit fp
  | [] => false
  end.

(** [in_fixed_range x]: [x] is finite and below [10^21] in magnitude, the
    range in which [toFixed] prints digits and a point. *)
Definition in_fixed_range (x : number) : bool :=
  is_finite x && abs_lt_1e21 x.

End JSNumber.

(** ** JavaScript values

    What [response.json()] can hand back, plus [undefined], which
    property reads produce. *)
Module JSValue.
Import JSNumber.

#[local] Set Warnings "-register-all".
Inductive value : Type :=
| VUndefined
| VNull
| VBool (b : bool)
| VNumber (x : number)
| VString (s : string)
| VArray (items : list value)
| VObject (fields : list (string * value)).

(** ToBoolean. *)
Definition truthy (v : value) : bool :=
  match v with
  | VUndefined | VNull => false
  | VBool b => b
  | VNumber (S754_zero _) | VNumber S754_nan => false
  | VNumber _ => true
  | VString s => negb (String.eqb s EmptyString)
  | VArray _ | VObject _ => true
  end.

Fixpoint assoc (k : string) (fields : list (string * value)) : option value :=
  match fields with
  | [] => None
  | (k', v) :: rest => if String.eqb k k' then Some v else assoc k rest
  end.

(** The value of the property [k] of [v] once [v] is known not to be
    [undefined] or [null].  The component reads only [name], [main],
    [temp], [pressure], [humidity], [weather] and [description]: none of
    them exists on a primitive, on an array or on [Object.prototype], so
    they come from the parsed fields or are [undefined]. *)
Definition member (v : value) (k : string) : value :=
  match v with
  | VObject fields => default VUndefined (assoc k fields)
  | _ => VUndefined
  end.

(** The element read by [v[0]]: the first item of an array, the first
    character of a string, the property ["0"] of an object. *)
Definition first (v : value) : value :=
  match v with
  | VArray items => default VUndefined (head items)
  | VString (String c _) => VString (String c EmptyString)
  | VObject fields => default VUndefined (assoc "0" fields)
  | _ => VUndefined
  end.

Definition nullish (v : value) : bool :=
  match v with
  | VUndefined | VNull => true
  | _ => false
  end.

End JSValue.

(** ** Effects: thrown errors, the event log, the world *)
Module Runtime.
Import JSNumber JSValue.

(** A thrown JS error object: its constructor name and its message. *)
Record error : Type := Error_ { error_name : string; message : string }.

Definition Error (msg : string) : error := Error_ "Error" msg.
Definition TypeError (msg : string) : error := Error_ "TypeError" msg.
Definition RangeError (msg : string) : error := Error_ "RangeError" msg.

(** What the outside of the component can observe, in order. *)
Inductive event : Type :=
| EAlert (title body : string)
| EFetch (url : string)
| EConsoleError (label : string) (e : error)
| ERequestPermission
| EWatch (id : nat)
| ERemove (id : nat).

(** The record shown in the dialog (lines 58-66). *)
Module Weather.
Record WeatherRecord : Type := Build {
  place : value;
  latitude : string;
  longitude : string;
  temp : string;
  pressure : value;
  humidity : value;
  description : value
}.
End Weather.
Export Weather(WeatherRecord).

(** The [useState] cells and the [useRef] cell of [App]. *)
Record AppState : Type := {
  latitude : number;
  longitude : number;
  weatherData : option WeatherRecord;
  visible : bool;
  locationError : option string;
  locationSubscription : option nat
}.

(** The component's cells, the log of effects so far, and the location
    service: the subscriptions it still serves and the next handle it
    will give out. *)
Record World : Type := {
  app : AppState;
  log : list event;
  active : gset nat;
  next_id : nat
}.

Definition with_app (f : AppState -> AppState) (w : World) : World :=
  {| app := f (app w); log := log w; active := active w; next_id := next_id w |}.

Definition emit (e : event) (w : World) : World :=
  {| app := app w; log := log w ++ [e]; active := active w; next_id := next_id w |}.

(** *** Completions: a value, or a thrown error *)

Inductive result (A : Type) : Type :=
| Normal (a : A)
| Thrown (e : error).
Arguments Normal {A} a.
Arguments Thrown {A} e.

(** Sequencing of expressions that touch no state. *)
Definition and_then {A B} (r : result A) (k : A -> result B) : result B :=
  match r with
  | Normal a => k a
  | Thrown e => Thrown e
  end.

(** *** The monad of a running handler: state plus [throw] *)

Definition M (A : Type) : Type := World -> result A * World.

Definition ret {A} (a : A) : M A := fun w => (Normal a, w).

Definition bind {A B} (m : M A) (k : A -> M B) : M B :=
  fun w =>
    match m w with
    | (Normal a, w') => k a w'
    | (Thrown e, w') => (Thrown e, w')
    end.

Definition throw {A} (e : error) : M A := fun w => (Thrown e, w).

(** [try { body } catch (error) { handler }]. *)
Definition try_catch {A} (body : M A) (handler : error -> M A) : M A :=
  fun w =>
    match body w with
    | (Normal a, w') => (Normal a, w')
    | (Thrown e, w') => handler e w'
    end.

Definition exec {A} (m : M A) (w : World) : World := snd (m w).

Definition modify (f : World -> World) : M unit := fun w => (Normal tt, f w).

Definition lift {A} (r : result A) : M A := fun w => (r, w).

End Runtime.

Declare Scope js_scope.
Delimit Scope js_scope with js.
Notation "'let*' x ':=' c 'in' k" := (Runtime.bind c (fun x => k))
  (at level 10, x name, c at level 100, k at level 200) : js_scope.
Notation "'let?' x ':=' c 'in' k" := (Runtime.and_then c (fun x => k))
  (at level 10, x name, c at level 100, k at level 200) : js_scope.
Notation "c ;; k" := (Runtime.bind c (fun _ => k))
  (at level 100, k at level 200, right associativity) : js_scope.

(** ** The platform: alerts, console, network, location service *)
Module Platform.
Import JSNumber JSValue Runtime.
Local Open Scope js_scope.
Local Open Scope string_scope.

(** A [fetch] response: [ok] is the platform's own test for a 2xx
    [status]; [text] and [json] are what the two body readers resolve to,
    or the error they reject with. *)
Record Response : Type := {
  ok : bool;
  status : number;
  text : result string;
  json : result value
}.

(** The network as one call sees it: the response for a URL, or the error
    [fetch] rejects with. *)
Definition network : Type := string -> result Response.

Definition Alert_alert (title body : string) : M unit :=
  modify (emit (EAlert title body)).

Definition console_error (label : string) (e : error) : M unit :=
  modify (emit (EConsoleError label e)).

Definition fetch (net : network) (url : string) : M Response :=
  modify (emit (EFetch url)) ;; lift (net url).

Definition response_text (r : Response) : M string := lift (text r).
Definition response_json (r : Response) : M value := lift (json r).

(** [v.k]: a TypeError on [undefined] and [null]. *)
Definition get (v : value) (k : string) : result value :=
  if nullish v then Thrown (TypeError ("Cannot read property '" ++ k ++ "' of " ++
                                       (if v is VNull then "null" else "undefined")))
  else Normal (member v k).

(** [v[0]]. *)
Definition get0 (v : value) : result value :=
  if nullish v then Thrown (TypeError ("Cannot read property '0' of " ++
                                       (if v is VNull then "null" else "undefined")))
  else Normal (first v).

(** [x.toFixed(f)] on a number. *)
Definition number_toFixed (x : number) (f : nat) : result string :=
  match toFixed f x with
  | Some s => Normal s
  | None => Thrown (RangeError "toFixed() digits argument must be between 0 and 100")
  end.

(** [v.toFixed(f)] on a value read from the response: only a number has
    the method. *)
Definition value_toFixed (v : value) (f : nat) : result string :=
  match v with
  | VNumber x => number_toFixed x f
  | VUndefined => Thrown (TypeError "Cannot read property 'toFixed' of undefined")
  | VNull => Thrown (TypeError "Cannot read property 'toFixed' of null")
  | _ => Thrown (TypeError "toFixed is not a function")
  end.

(** [Location.requestForegroundPermissionsAsync()]: resolves to a response
    whose [status] is [answer], or rejects. *)
Definition requestForegroundPermissionsAsync (answer : result string) : M string :=
  modify (emit ERequestPermission) ;; lift answer.

(** [Location.watchPositionAsync(options, callback)]: rejects with [e] when
    [answer = Some e]; otherwise the service starts a subscription and
    returns its handle. *)
Definition watchPositionAsync (answer : option error) : M nat :=
  fun w =>
    match answer with
    | Some e => (Thrown e, w)
    | None =>
        let id := next_id w in
        (Normal id,
         {| app := app w; log := log w ++ [EWatch id];
            active := active w ∪ {[ id ]}; next_id := S id |})
    end.

(** [subscription.remove()]. *)
Definition remove (h : nat) : M unit :=
  modify (fun w =>
    {| app := app w; log := log w ++ [ERemove h];
       active := active w ∖ {[ h ]}; next_id := next_id w |}).

End Platform.

(** ** The component, for any value of its [API_KEY] constant *)
Module Component.
Import JSNumber JSValue Runtime Platform.
Local Open Scope js_scope.
Local Open Scope string_scope.

(** The state setters and the ref cell. *)
Definition setLatitude (x : number) : M unit :=
  modify (with_app (fun a =>
    {| latitude := x; longitude := longitude a; weatherData := weatherData a;
       visible := visible a; locationError := locationError a;
       locationSubscription := locationSubscription a |})).

Definition setLongitude (x : number) : M unit :=
  modify (with_app (fun a =>
    {| latitude := latitude a; longitude := x; weatherData := weatherData a;
       visible := visible a; locationError := locationError a;
       locationSubscription := locationSubscription a |})).

Definition setWeatherData (r : option WeatherRecord) : M unit :=
  modify (with_app (fun a =>
    {| latitude := latitude a; longitude := longitude a; weatherData := r;
       visible := visible a; locationError := locationError a;
       locationSubscription := locationSubscription a |})).

Definition setVisible (b : bool) : M unit :=
  modify (with_app (fun a =>
    {| latitude := latitude a; longitude := longitude a; weatherData := weatherData a;
       visible := b; locationError := locationError a;
       locationSubscription := locationSubscription a |})).

Definition setLocationError (e : option string) : M unit :=
  modify (with_app (fun a =>
    {| latitude := latitude a; longitude := longitude a; weatherData := weatherData a;
       visible := visible a; locationError := e;
       locationSubscription := locationSubscription a |})).

Definition set_locationSubscription (h : option nat) : M unit :=
  modify (with_app (fun a =>
    {| latitude := latitude a; longitude := longitude a; weatherData := weatherData a;
       visible := visible a; locationError := locationError a;
       locationSubscription := h |})).

Definition read {A} (cell : AppState -> A) : M A := fun w => (Normal (cell (app w)), w).

Section App.

(** [const API_KEY]; [None] is a key that is not there ([undefined]). *)
Variable API_KEY : option string.

(** [!API_KEY || API_KEY === 'YOUR_ACTUAL_API_KEY_HERE'] (line 39). *)
Definition key_rejected : bool :=
  match API_KEY with
  | None => true
  | Some k => String.eqb k EmptyString || String.eqb k "YOUR_ACTUAL_API_KEY_HERE"
  end.

(** Line 36. *)
Definition apiURL (lat lon : number) : string :=
  "https://api.openweathermap.org/data/2.5/weather?lat=" ++ toString lat ++
  "&lon=" ++ toString lon ++
  "&appid=" ++ default "undefined" API_KEY ++ "&units=metric".

(** Lines 31-32. *)
Definition showDialog : M unit := setVisible true.
Definition hideDialog : M unit := setVisible false.

(** The object literal of lines 58-66, its properties evaluated in
    order. *)
Definition weatherRecord (lat lon : number) (data : value) : result WeatherRecord :=
  let? name := get data "name" in
  let place := if truthy name then name else VString "Unknown Location" in
  let? latitude := number_toFixed lat 4 in
  let? longitude := number_toFixed lon 4 in
  let? main := get data "main" in
  let? temp0 := get main "temp" in
  let? temp := value_toFixed temp0 2 in
  let? main' := get data "main" in
  let? pressure := get main' "pressure" in
  let? main'' := get data "main" in
  let? humidity := get main'' "humidity" in
  let? weather := get data "weather" in
  let? weather0 := get0 weather in
  let? description := get weather0 "description" in
  Normal (Weather.Build place latitude longitude temp pressure humidity description).

(** Lines 35-75. *)
Definition fetchWeatherData (net : network) (lat lon : number) : M unit :=
  try_catch
    (if key_rejected then
       Alert_alert "API Error" "Please add a valid OpenWeatherMap API key"
     else
       let* response := fetch net (apiURL lat lon) in
       (if negb (ok response) then
          let* errorText := response_text response in
          throw (Error ("HTTP error! status: " ++ toString (status response) ++
                        ", " ++ errorText))
        else ret tt) ;;
       let* data := response_json response in
       if truthy data then
         let* r := lift (weatherRecord lat lon data) in
         setWeatherData (Some r)
       else throw (Error "Unable to retrieve weather data"))
    (fun error => console_error "Weather fetch error:" error).

(** The callback handed to [watchPositionAsync] (lines 99-108). *)
Definition locationCallback (net : network) (newLat newLon : number) : M unit :=
  setLatitude newLat ;;
  setLongitude newLon ;;
  fetchWeatherData net newLat newLon.

(** Lines 78-114; [perm] and [watch] are what the location service
    answers to the two calls. *)
Definition startLocationTracking (perm : result string) (watch : option error)
  : M unit :=
  try_catch
    (let* status := requestForegroundPermissionsAsync perm in
     if negb (String.eqb status "granted") then
       setLocationError (Some "Permission to access location was denied")
     else
       let* current := read locationSubscription in
       (match current with
        | Some h => remove h
        | None => ret tt
        end) ;;
       let* subscription := watchPositionAsync watch in
       set_locationSubscription (Some subscription))
    (fun error =>
       setLocationError (Some ("Error tracking location: " ++ message error)) ;;
       Alert_alert "Location Error" (message error)).

(** The cleanup returned by the effect (lines 119-123). *)
Definition cleanup : M unit :=
  let* current := read locationSubscription in
  match current with
  | Some h => remove h
  | None => ret tt
  end.

(** Lines 127-130. *)
Definition getWeather (net : network) : M unit :=
  let* lat := read latitude in
  let* lon := read longitude in
  fetchWeatherData net lat lon ;;
  showDialog.

(** *** The component as a transition system

    Each action runs one handler whole, the platform's answers to its
    awaited calls being carried by the action.  What depends on the
    entries that run between two awaits of a handler is stated on the
    machine of [EventLoop] below, which cuts the handlers at their
    awaits. *)
Inductive action : Type :=
| Start (perm : result string) (watch : option error)
    (* the effect body: [startLocationTracking()] *)
| Unmount
    (* the effect cleanup *)
| Position (h : nat) (lat lon : number) (net : network)
    (* the location service calls back for subscription [h] *)
| PressShowWeather (net : network)
    (* the button's [onPress] *)
| Dismiss.
    (* the dialog's [onDismiss] and its Close button *)

Definition step (a : action) (w : World) : World :=
  match a with
  | Start perm watch => exec (startLocationTracking perm watch) w
  | Unmount => exec cleanup w
  | Position h lat lon net =>
      if decide (h ∈ active w) then exec (locationCallback net lat lon) w else w
  | PressShowWeather net => exec (getWeather net) w
  | Dismiss => exec hideDialog w
  end.

Definition run (tr : list action) (w : World) : World :=
  foldl (fun w a => step a w) w tr.

End App.

(** Lines 19-26: the initial values of the cells. *)
Definition initial_state : AppState :=
  {| latitude := literal 57538900 (-6);
     longitude := literal 25425727 (-6);
     weatherData := None;
     visible := false;
     locationError := None;
     locationSubscription := None |}.

Definition initial_world : World :=
  {| app := initial_state; log := []; active := ∅; next_id := 0 |}.

End Component.

(** ** The component as shipped *)
Module App.
Import Runtime Platform.

(** Line 28. *)
Definition API_KEY : option string := Some "Your API key"%string.

Definition fetchWeatherData := Component.fetchWeatherData API_KEY.
Definition startLocationTracking := Component.startLocationTracking.
Definition getWeather := Component.getWeather API_KEY.
Definition apiURL := Component.apiURL API_KEY.
Definition step := Component.step API_KEY.
Definition run := Component.run API_KEY.

End App.

(** ** The vocabulary of the properties *)
Module Properties.
Import JSNumber JSValue Runtime Platform Component.
Local Open Scope string_scope.

(** [respects R m]: running [m] moves the world along [R]. *)
Definition respects (R : World -> World -> Prop) {A} (m : M A) : Prop :=
  forall w, R w (exec m w).

(** Everything but the weather record and the log is the same. *)
Definition same_except_weather (w w' : World) : Prop :=
  latitude (app w') = latitude (app w) /\
  longitude (app w') = longitude (app w) /\
  visible (app w') = visible (app w) /\
  locationError (app w') = locationError (app w) /\
  locationSubscription (app w') = locationSubscription (app w) /\
  active w' = active w /\
  next_id w' = next_id w.

(** Events that neither start nor stop a subscription. *)
Definition quiet (e : event) : bool :=
  match e with
  | EWatch _ | ERemove _ => false
  | _ => true
  end.

Definition is_alert (e : event) : bool :=
  match e with
  | EAlert _ _ => true
  | _ => false
  end.

(** The log grew by quiet events only; the location service and the ref
    cell are as they were. *)
Definition quiet_extension (w w' : World) : Prop :=
  (exists evs, log w' = (log w ++ evs)%list /\ forallb quiet evs = true) /\
  locationSubscription (app w') = locationSubscription (app w) /\
  active w' = active w /\
  next_id w' = next_id w.

(** The subscriptions live after a history of events. *)
Definition replay_event (live : gset nat) (e : event) : gset nat :=
  match e with
  | EWatch id => live ∪ {[ id ]}
  | ERemove id => live ∖ {[ id ]}
  | _ => live
  end.

Definition replay (history : list event) : gset nat :=
  foldl replay_event ∅ history.

Definition is_position (a : action) : bool :=
  match a with
  | Position _ _ _ _ => true
  | _ => false
  end.

(** The Valka scenario: coordinates, response body and expected
    record. *)
Definition valka_lat : number := literal 575389 (-4).
Definition valka_lon : number := literal 25425727 (-6).

Definition valka_body : value :=
  VObject
    [("name", VString "Valka");
     ("main", VObject [("temp", VNumber (literal 18456 (-3)));
                       ("pressure", VNumber (of_Z 1012));
                       ("humidity", VNumber (of_Z 60))]);
     ("weather", VArray [VObject [("description", VString "clear sky")]])].

Definition valka_record : WeatherRecord :=
  Weather.Build (VString "Valka") "57.5389" "25.4257" "18.46"
                (VNumber (of_Z 1012)) (VNumber (of_Z 60)) (VString "clear sky").

Definition store_record (r : WeatherRecord) (a : AppState) : AppState :=
  {| latitude := latitude a; longitude := longitude a; weatherData := Some r;
     visible := visible a; locationError := locationError a;
     locationSubscription := locationSubscription a |}.

(** Mocked networks: the successful Valka response, a 401, a body
    without [main], a body whose temperature is [1e21]. *)
Definition valka_response : Response :=
  {| ok := true; status := of_Z 200; text := Normal "{}"; json := Normal valka_body |}.

Definition valka_net : network := fun _ => Normal valka_response.

Definition unauthorized_body : string := "Invalid API key".

Definition unauthorized_response : Response :=
  {| ok := false; status := of_Z 401; text := Normal unauthorized_body;
     json := Thrown (Error_ "SyntaxError" "JSON Parse error") |}.

Definition unauthorized_net : network := fun _ => Normal unauthorized_response.

(** A world that already shows a record. *)
Definition world_with_valka : World :=
  with_app (store_record valka_record) initial_world.

Definition no_main_body : value :=
  VObject [("name", VString "Valka");
           ("weather", VArray [VObject [("description", VString "clear sky")]])].

Definition no_main_response : Response :=
  {| ok := true; status := of_Z 200; text := Normal "{}"; json := Normal no_main_body |}.

Definition no_main_net : network := fun _ => Normal no_main_response.

Definition huge_temperature_body : value :=
  VObject
    [("name", VString "Valka");
     ("main", VObject [("temp", VNumber (literal 1 21));
                       ("pressure", VNumber (of_Z 1012));
                       ("humidity", VNumber (of_Z 60))]);
     ("weather", VArray [VObject [("description", VString "clear sky")]])].

Definition huge_temperature_response : Response :=
  {| ok := true; status := of_Z 200; text := Normal "{}";
     json := Normal huge_temperature_body |}.

Definition huge_temperature_net : network := fun _ => Normal huge_temperature_response.

(** What the [try] block of the fetch completes with once the key has
    passed the guard: the record to store, or the error the [catch]
    clause receives. *)
Definition try_outcome (net : network) (url : string) (lat lon : number)
  : result WeatherRecord :=
  and_then (net url) (fun response =>
  and_then (if negb (ok response) then
              and_then (text response) (fun errorText =>
                Thrown (Error ("HTTP error! status: " ++ toString (status response) ++
                               ", " ++ errorText)))
            else Normal tt) (fun _ =>
  and_then (json response) (fun data =>
  if truthy data then weatherRecord lat lon data
  else Thrown (Error "Unable to retrieve weather data")))).

Definition store_location_error (msg : string) (a : AppState) : AppState :=
  {| latitude := latitude a; longitude := longitude a; weatherData := weatherData a;
     visible := visible a; locationError := Some msg;
     locationSubscription := locationSubscription a |}.

(** The invariant of the tracker, on the log, the live subscriptions and
    the ref cell: no moment of the history has two live subscriptions,
    a subscription is only ever started when none is live, the live set
    is the one the history yields, and a live subscription is the one
    the ref cell holds. *)
Definition orderly (history : list event) : Prop :=
  forall l1 l2, history = (l1 ++ l2)%list ->
    (size (replay l1) <= 1)%nat /\
    forall id rest, l2 = EWatch id :: rest -> replay l1 = ∅.

Definition tracked (history : list event) (live : gset nat) (ref : option nat) : Prop :=
  orderly history /\ replay history = live /\ forall h, h ∈ live -> ref = Some h.

Definition idle (history : list event) (live : gset nat) : Prop :=
  orderly history /\ replay history = live /\ live = ∅.

(** A response body that lacks the [main] block, the [temp] of that
    block, or the [weather] array. *)
Definition lacks_required (data : value) : Prop :=
  member data "main" = VUndefined \/
  member (member data "main") "temp" = VUndefined \/
  member data "weather" = VUndefined.

End Properties.

(** ** What the component renders (lines 132-213) *)
Module Screen.
Import JSNumber JSValue Runtime.
Local Open Scope string_scope.

(** The [region] prop of the map. *)
Module Region.
Record t : Type := Build {
  latitude : number;
  longitude : number;
  latitudeDelta : number;
  longitudeDelta : number
}.
End Region.

(** One [<Text>] line of the dialog: the bold label, the value, and what
    follows the value. *)
Record Line : Type := { label : string; content : value; suffix : string }.

(** The parts of the tree that depend on the state: the map region, the
    [visible] prop of the dialog, the lines inside it, and the error text
    under the card. *)
Record t : Type := {
  region : Region.t;
  dialog_visible : bool;
  dialog_lines : option (list Line);
  error_text : option string
}.

(** Lines 166-197: [weatherData && (...)]. *)
Definition weather_lines (r : WeatherRecord) : list Line :=
  [ {| label := "Place: "; content := Weather.place r; suffix := EmptyString |};
    {| label := "Latitude: "; content := VString (Weather.latitude r);
       suffix := EmptyString |};
    {| label := "Longitude: "; content := VString (Weather.longitude r);
       suffix := EmptyString |};
    {| label := "Temp: "; content := VString (Weather.temp r); suffix := "°C" |};
    {| label := "Pressure: "; content := Weather.pressure r; suffix := EmptyString |};
    {| label := "Humidity: "; content := Weather.humidity r; suffix := "%" |};
    {| label := "Description: "; content := Weather.description r;
       suffix := EmptyString |} ].

(** Lines 207-209: [locationError && (...)]; an empty string is falsy and
    puts no [<Text>] on the screen. *)
Definition error_line (e : option string) : option string :=
  match e with
  | Some msg => if String.eqb msg EmptyString then None else Some msg
  | None => None
  end.

Definition render (a : AppState) : t :=
  {| region := Region.Build (latitude a) (longitude a)
                            (literal 922 (-4)) (literal 421 (-4));
     dialog_visible := visible a;
     dialog_lines := option_map weather_lines (weatherData a);
     error_text := error_line (locationError a) |}.

End Screen.

(** ** More vocabulary: exact outcomes of the tracker and of the fetch *)
Module Outcomes.
Import JSNumber JSValue Runtime Platform Component Properties.
Local Open Scope string_scope.

Definition store_subscription (h : nat) (a : AppState) : AppState :=
  {| latitude := latitude a; longitude := longitude a; weatherData := weatherData a;
     visible := visible a; locationError := locationError a;
     locationSubscription := Some h |}.

(** The events of lines 88-90 and 120-122: the removal of what the ref
    cell holds. *)
Definition removal (ref : option nat) : list event :=
  match ref with
  | Some h => [ERemove h]
  | None => []
  end.

Definition without (ref : option nat) (live : gset nat) : gset nat :=
  match ref with
  | Some h => live ∖ {[ h ]}
  | None => live
  end.

(** The record the object literal of lines 58-66 builds from a body whose
    temperature is the number [t]. *)
Definition built_record (data : value) (la lo te : string) : WeatherRecord :=
  Weather.Build
    (if truthy (member data "name") then member data "name"
     else VString "Unknown Location")
    la lo te
    (member (member data "main") "pressure")
    (member (member data "main") "humidity")
    (member (first (member data "weather")) "description").

(** The text [toFixed] prints for the integer [n] of step 11.a. *)
Definition fixed_text (f : nat) (negative : bool) (n : Z) : string :=
  string_of_list_ascii
    (if negative then "-"%char :: place_point f (digits n) else place_point f (digits n)).

(** [n / 10^f] is within half a unit of the last place of the magnitude
    of [x]. *)
Definition nearest_to (f : nat) (x : number) (n : Z) : Prop :=
  2 * Z.abs (n * snd (magnitude x) - fst (magnitude x) * 10 ^ Z.of_nat f)
    <= snd (magnitude x).

(** More mocked networks: no connection, a body that is [null], a body
    with nothing but a temperature and an empty first weather entry. *)
Definition offline_error : error := TypeError "Network request failed".

Definition offline_net : network := fun _ => Thrown offline_error.

Definition null_response : Response :=
  {| ok := true; status := of_Z 200; text := Normal "null"; json := Normal VNull |}.

Definition null_net : network := fun _ => Normal null_response.

Definition bare_body : value :=
  VObject [("main", VObject [("temp", VNumber (literal (-35) (-1)))]);
           ("weather", VArray [VObject []])].

Definition bare_response : Response :=
  {| ok := true; status := of_Z 200; text := Normal "{}"; json := Normal bare_body |}.

Definition bare_net : network := fun _ => Normal bare_response.

(** The world after one successful start of the tracker. *)
Definition tracking_world : World :=
  App.run [Start (Normal "granted") None] initial_world.

Definition bare_record : WeatherRecord :=
  Weather.Build (VString "Unknown Location") "57.5389" "25.4257" "-3.50"
                VUndefined VUndefined VUndefined.

End Outcomes.

(** ** The event loop: handlers cut at their awaits

    An [async] handler runs until its next [await], is suspended there,
    and goes on in a later entry of the event loop, when what it waits
    for has settled; other entries run in between.  The handlers of the
    component are cut into these segments here, and the machine below
    schedules the segments one entry at a time. *)
Module EventLoop.
Import JSNumber JSValue Runtime Platform Component.
Local Open Scope js_scope.
Local Open Scope string_scope.

(** Where a call of [startLocationTracking] can be suspended: at the
    [await] of line 81, or at the one of line 93, the call of
    [watchPositionAsync] already made and its promise about to settle
    with a handle or an error. *)
Inductive start_task : Type :=
| AwaitsPermission
| AwaitsWatch (settles : result nat).

(** Where a call of [fetchWeatherData] can be suspended: at the [await]
    of line 45, of line 49 or of line 54. *)
Inductive fetch_task : Type :=
| AwaitsResponse (lat lon : number)
| AwaitsText (response : Response)
| AwaitsJson (lat lon : number) (response : Response).

(** The [catch] clause of lines 110-113. *)
Definition catch_tracking (error : error) : M unit :=
  setLocationError (Some ("Error tracking location: " ++ message error)) ;;
  Alert_alert "Location Error" (message error).

(** [startLocationTracking] from its call to the [await] of line 81. *)
Definition start_to_permission : M (option start_task) :=
  modify (emit ERequestPermission) ;;
  ret (Some AwaitsPermission).

(** From the [await] of line 81, settled with [perm], to the [await] of
    line 93 or to the end. *)
Definition start_from_permission (perm : result string) (watch : option error)
  : M (option start_task) :=
  match perm with
  | Thrown error => catch_tracking error ;; ret None
  | Normal status =>
      if negb (String.eqb status "granted") then
        setLocationError (Some "Permission to access location was denied") ;;
        ret None
      else
        let* current := read locationSubscription in
        (match current with
         | Some h => remove h
         | None => ret tt
         end) ;;
        fun w => let (settles, w') := watchPositionAsync watch w in
                 (Normal (Some (AwaitsWatch settles)), w')
  end.

(** From the [await] of line 93 to the end. *)
Definition start_from_watch (settles : result nat) : M (option start_task) :=
  match settles with
  | Normal subscription => set_locationSubscription (Some subscription) ;; ret None
  | Thrown error => catch_tracking error ;; ret None
  end.

Section Machine.

Variable API_KEY : option string.

(** The [catch] clause of lines 71-74. *)
Definition catch_fetch (error : error) : M unit :=
  console_error "Weather fetch error:" error.

(** [fetchWeatherData] from its call to the [await] of line 45. *)
Definition fetch_to_response (lat lon : number) : M (option fetch_task) :=
  if key_rejected API_KEY then
    Alert_alert "API Error" "Please add a valid OpenWeatherMap API key" ;;
    ret None
  else
    modify (emit (EFetch (apiURL API_KEY lat lon))) ;;
    ret (Some (AwaitsResponse lat lon)).

(** From the [await] of line 45 to the one of line 49 or of line 54. *)
Definition fetch_from_response (lat lon : number) (answer : result Response)
  : M (option fetch_task) :=
  match answer with
  | Thrown error => catch_fetch error ;; ret None
  | Normal response =>
      if negb (ok response) then ret (Some (AwaitsText response))
      else ret (Some (AwaitsJson lat lon response))
  end.

(** From the [await] of line 49 to the end. *)
Definition fetch_from_text (response : Response) : M (option fetch_task) :=
  match text response with
  | Thrown error => catch_fetch error ;; ret None
  | Normal errorText =>
      catch_fetch (Error ("HTTP error! status: " ++ toString (status response) ++
                          ", " ++ errorText)) ;;
      ret None
  end.

(** From the [await] of line 54 to the end. *)
Definition fetch_from_json (lat lon : number) (response : Response)
  : M (option fetch_task) :=
  match json response with
  | Thrown error => catch_fetch error ;; ret None
  | Normal data =>
      if truthy data then
        match weatherRecord lat lon data with
        | Normal r => setWeatherData (Some r) ;; ret None
        | Thrown error => catch_fetch error ;; ret None
        end
      else catch_fetch (Error "Unable to retrieve weather data") ;; ret None
  end.

(** The callback of lines 99-108: the fetch it calls is not awaited and
    runs to its first [await]. *)
Definition callback_to_response (newLat newLon : number) : M (option fetch_task) :=
  setLatitude newLat ;;
  setLongitude newLon ;;
  fetch_to_response newLat newLon.

(** [getWeather] (lines 127-130): the fetch runs to its first [await],
    then the dialog is opened. *)
Definition getWeather_to_response : M (option fetch_task) :=
  let* lat := read latitude in
  let* lon := read longitude in
  let* suspended := fetch_to_response lat lon in
  showDialog ;;
  ret suspended.

(** The world and the suspended handlers. *)
Record Machine : Type := {
  world : World;
  starts : list start_task;
  fetches : list fetch_task
}.

Definition suspension {T} (r : result (option T)) : list T :=
  match r with
  | Normal (Some t) => [t]
  | _ => []
  end.

(** Run a segment of a start, [others] being the other suspended
    starts. *)
Definition run_start (segment : M (option start_task)) (others : list start_task)
    (m : Machine) : Machine :=
  let (r, w') := segment (world m) in
  {| world := w'; starts := others ++ suspension r; fetches := fetches m |}.

Definition run_fetch (segment : M (option fetch_task)) (others : list fetch_task)
    (m : Machine) : Machine :=
  let (r, w') := segment (world m) in
  {| world := w'; starts := starts m; fetches := others ++ suspension r |}.

(** The entries of the event loop. *)
Inductive entry : Type :=
| StartInvoked
    (* the effect body calls [startLocationTracking()] (line 117) *)
| Unmounted
    (* the effect cleanup (lines 119-123) *)
| PositionDelivered (h : nat) (lat lon : number)
    (* the location service calls back for subscription [h] *)
| Pressed
    (* the button's [onPress] *)
| Dismissed
    (* the dialog's [onDismiss] and its Close button *)
| PermissionSettled (i : nat) (perm : result string) (watch : option error)
    (* the permission request of the [i]-th suspended start settles;
       [watch] is what the call of [watchPositionAsync] will do *)
| WatchSettled (i : nat)
    (* the promise of [watchPositionAsync] of the [i]-th suspended start
       settles *)
| ResponseSettled (i : nat) (answer : result Response)
    (* the [fetch] of the [i]-th suspended fetch settles *)
| BodySettled (i : nat).
    (* the [text()] or [json()] of the [i]-th suspended fetch settles *)

Definition step (e : entry) (m : Machine) : Machine :=
  match e with
  | StartInvoked => run_start start_to_permission (starts m) m
  | Unmounted =>
      {| world := exec cleanup (world m); starts := starts m; fetches := fetches m |}
  | PositionDelivered h lat lon =>
      if decide (h ∈ active (world m))
      then run_fetch (callback_to_response lat lon) (fetches m) m
      else m
  | Pressed => run_fetch getWeather_to_response (fetches m) m
  | Dismissed =>
      {| world := exec hideDialog (world m); starts := starts m; fetches := fetches m |}
  | PermissionSettled i perm watch =>
      match starts m !! i with
      | Some AwaitsPermission =>
          run_start (start_from_permission perm watch) (delete i (starts m)) m
      | _ => m
      end
  | WatchSettled i =>
      match starts m !! i with
      | Some (AwaitsWatch settles) =>
          run_start (start_from_watch settles) (delete i (starts m)) m
      | _ => m
      end
  | ResponseSettled i answer =>
      match fetches m !! i with
      | Some (AwaitsResponse lat lon) =>
          run_fetch (fetch_from_response lat lon answer) (delete i (fetches m)) m
      | _ => m
      end
  | BodySettled i =>
      match fetches m !! i with
      | Some (AwaitsText response) =>
          run_fetch (fetch_from_text response) (delete i (fetches m)) m
      | Some (AwaitsJson lat lon response) =>
          run_fetch (fetch_from_json lat lon response) (delete i (fetches m)) m
      | _ => m
      end
  end.

Definition run (schedule : list entry) (m : Machine) : Machine :=
  foldl (fun m e => step e m) m schedule.

(** [serial schedule m]: in [schedule], run from [m], tracking is never
    started while an earlier start is still suspended. *)
Fixpoint serial (schedule : list entry) (m : Machine) : bool :=
  match schedule with
  | [] => true
  | e :: rest =>
      match e, starts m with
      | StartInvoked, _ :: _ => false
      | _, _ => serial rest (step e m)
      end
  end.

Definition is_start (e : entry) : bool :=
  match e with
  | StartInvoked => true
  | _ => false
  end.

(** A handler run whole: each suspension resumed at once. *)
Definition start_whole (perm : result string) (watch : option error) : M unit :=
  fun w =>
    let (_, w1) := start_to_permission w in
    let (r, w2) := start_from_permission perm watch w1 in
    match r with
    | Normal (Some (AwaitsWatch settles)) =>
        let (_, w3) := start_from_watch settles w2 in (Normal tt, w3)
    | _ => (Normal tt, w2)
    end.

Definition resume_fetch (net : network) (t : fetch_task) : M (option fetch_task) :=
  match t with
  | AwaitsResponse lat lon => fetch_from_response lat lon (net (apiURL API_KEY lat lon))
  | AwaitsText response => fetch_from_text response
  | AwaitsJson lat lon response => fetch_from_json lat lon response
  end.

Definition and_resume (net : network) (segment : M (option fetch_task))
  : M (option fetch_task) :=
  fun w =>
    match segment w with
    | (Normal (Some t), w') => resume_fetch net t w'
    | other => other
    end.

Definition fetch_whole (net : network) (lat lon : number) : M (option fetch_task) :=
  and_resume net (and_resume net (fetch_to_response lat lon)).

End Machine.

Definition initial_machine : Machine :=
  {| world := initial_world; starts := []; fetches := [] |}.

End EventLoop.

(** ** The vocabulary of the tracker's properties on the event loop *)
Module Schedules.
Import JSNumber JSValue Runtime Platform Component Properties EventLoop.
Local Open Scope string_scope.

(** What holds of the history, the live subscriptions and the ref cell
    according to where the one start in flight, if any, is suspended. *)
Definition phase_ok (suspended : list start_task) (w : World) : Prop :=
  match suspended with
  | [] | [AwaitsPermission] =>
      tracked (log w) (active w) (locationSubscription (app w))
  | [AwaitsWatch (Normal id)] =>
      tracked (log w) (active w) (Some id) /\
      active w = {[ id ]} /\
      locationSubscription (app w) <> Some id /\
      (id < next_id w)%nat
  | [AwaitsWatch (Thrown _)] => idle (log w) (active w)
  | _ => False
  end.

Definition steady (m : Machine) : Prop :=
  phase_ok (starts m) (world m) /\
  forall h, locationSubscription (app (world m)) = Some h -> (h < next_id (world m))%nat.

(** Two starts, the second invoked while the first is suspended; both
    are granted and both subscriptions are set up.  A resumed start
    leaves the list of suspended starts and re-enters it at the end, so
    index 0 names the first start and then the second, in turn. *)
Definition overlapping_starts : list entry :=
  [StartInvoked; StartInvoked;
   PermissionSettled 0 (Normal "granted") None;
   PermissionSettled 0 (Normal "granted") None;
   WatchSettled 0; WatchSettled 0].

(** Two starts one after the other. *)
Definition serial_starts : list entry :=
  [StartInvoked; PermissionSettled 0 (Normal "granted") None; WatchSettled 0;
   StartInvoked; PermissionSettled 0 (Normal "granted") None; WatchSettled 0].

(** A start that has been granted and has made its call of
    [watchPositionAsync], with a press in between. *)
Definition start_in_progress : list entry :=
  [StartInvoked; Pressed; PermissionSettled 0 (Normal "granted") None].

(** An unmount while the start is suspended at the permission request. *)
Definition unmount_during_start : list entry :=
  [StartInvoked; Unmounted; PermissionSettled 0 (Normal "granted") None;
   WatchSettled 0].

(** Entries that start tracking or run the cleanup. *)
Definition disturbs (e : entry) : bool :=
  match e with
  | StartInvoked | Unmounted => true
  | _ => false
  end.

(** The world after one start has been invoked and nothing else. *)
Definition start_pending : list entry := [StartInvoked].

End Schedules.

(** * Facts about the number model *)
Module NumberFacts.
Import JSNumber.

Lemma uint_chars_digits (d : Decimal.uint) :
  forallb is_digit (uint_chars d) = true.
Proof. induction d; simpl; auto. Qed.

Lemma digits_are_digits (n : Z) : forallb is_digit (digits n) = true.
Proof. destruct n; simpl; auto using uint_chars_digits. Qed.

Lemma zeros_are_digits (k : nat) : forallb is_digit (zeros k) = true.
Proof. induction k; simpl; auto. Qed.

Lemma forallb_take {A} (p : A -> bool) (n : nat) (l : list A) :
  forallb p l = true -> forallb p (take n l) = true.
Proof.
  revert n; induction l as [|a l IH]; intros [|n] H; simpl in *; auto.
  apply andb_true_iff in H as [Ha Hl]. rewrite Ha, IH; auto.
Qed.

Lemma forallb_drop {A} (p : A -> bool) (n : nat) (l : list A) :
  forallb p l = true -> forallb p (drop n l) = true.
Proof.
  revert n; induction l as [|a l IH]; intros [|n] H; simpl in *; auto.
  apply andb_true_iff in H as [_ Hl]. auto.
Qed.

Lemma padded_length (f : nat) (m : list ascii) : (f + 1 <= length (padded f m))%nat.
Proof.
  unfold padded, zeros. destruct (Nat.leb_spec (length m) f).
  - rewrite length_app, length_replicate. lia.
  - lia.
Qed.

Lemma padded_digits (f : nat) (m : list ascii) :
  forallb is_digit m = true -> forallb is_digit (padded f m) = true.
Proof.
  intros H. unfold padded. destruct (length m <=? f)%nat; auto.
  rewrite forallb_app, zeros_are_digits, H. reflexivity.
Qed.

Lemma place_point_split (f : nat) (m : list ascii) :
  f <> 0%nat ->
  place_point f m =
    take (length (padded f m) - f) (padded f m) ++
    "."%char :: drop (length (padded f m) - f) (padded f m).
Proof. destruct f; [congruence | reflexivity]. Qed.

(** Digits, then a point, then exactly [f] digits. *)
Lemma shape_fixed (f : nat) (ip fp : list ascii) :
  ip <> [] -> forallb is_digit ip = true ->
  length fp = f -> forallb is_digit fp = true ->
  forall sign : bool,
    is_fixed f (string_of_list_ascii
                  (if sign then "-"%char :: ip ++ "."%char :: fp
                   else ip ++ "."%char :: fp)) = true.
Proof.
  intros Hne Hip Hlen Hfp sign. unfold is_fixed.
  rewrite list_ascii_of_string_of_list_ascii.
  set (body := ip ++ "."%char :: fp).
  assert (Hbody :
    match (if sign then "-"%char :: body else body) with
    | c :: r => if Ascii.eqb c "-" then r else (if sign then "-"%char :: body else body)
    | [] => []
    end = body).
  { destruct sign; [reflexivity|].
    subst body. destruct ip as [|c ip]; [congruence|]. simpl in *.
    apply andb_true_iff in Hip as [Hc _].
    destruct (Ascii.eqb_spec c "-"); [subst c; discriminate Hc | reflexivity]. }
  rewrite Hbody. subst body.
  assert (Hl : (length (ip ++ "."%char :: fp) - (f + 1) = length ip)%nat).
  { rewrite length_app. simpl. lia. }
  rewrite Hl, take_app_length, drop_app_length.
  rewrite Hip, Hfp, Hlen, Nat.eqb_refl.
  destruct ip; [congruence | reflexivity].
Qed.

Lemma place_point_fixed (f : nat) (m : list ascii) (sign : bool) :
  f <> 0%nat -> forallb is_digit m = true ->
  is_fixed f (string_of_list_ascii
                (if sign then "-"%char :: place_point f m else place_point f m)) = true.
Proof.
  intros Hf Hm. rewrite place_point_split by assumption.
  pose proof (padded_length f m) as Hlen.
  pose proof (padded_digits f m Hm) as Hd.
  apply shape_fixed.
  - intros E. apply (f_equal length) in E. rewrite length_take in E. simpl in E. lia.
  - apply forallb_take, Hd.
  - rewrite length_drop. lia.
  - apply forallb_drop, Hd.
Qed.

(** Within range, [toFixed] prints digits, a point and exactly [f]
    digits. *)
Lemma toFixed_in_range (f : nat) (x : number) :
  (0 < f <= 100)%nat -> in_fixed_range x = true ->
  exists s, toFixed f x = Some s /\ is_fixed f s = true.
Proof.
  intros [Hf0 Hf] Hr. unfold in_fixed_range in Hr.
  apply andb_true_iff in Hr as [Hfin Hlt].
  unfold toFixed. destruct (Nat.ltb_spec 100 f) as [?|_]; [lia|].
  rewrite Hfin, Hlt. simpl.
  destruct (magnitude x) as [p q].
  eexists; split; [reflexivity|].
  apply place_point_fixed; [lia | apply digits_are_digits].
Qed.

(** Step 11 picks an integer no further than half a unit in the last
    place from the scaled magnitude. *)
Lemma nearest_scaled_close (f : nat) (p q : Z) :
  0 < q ->
  2 * Z.abs (nearest_scaled f p q * q - p * 10 ^ Z.of_nat f) <= q.
Proof.
  intros Hq. unfold nearest_scaled.
  set (T := 10 ^ Z.of_nat f).
  pose proof (Z.div_mod (2 * p * T + q) (2 * q) ltac:(lia)) as Hdm.
  pose proof (Z.mod_pos_bound (2 * p * T + q) (2 * q) ltac:(lia)) as Hb.
  set (n := (2 * p * T + q) / (2 * q)) in *.
  lia.
Qed.

Lemma magnitude_denominator (x : number) : 0 < snd (magnitude x).
Proof.
  destruct x as [| | |s m e]; simpl; try lia.
  destruct e; simpl; try lia.
Qed.

(** Within range, what [toFixed] prints is the digit string of an integer
    [n], the point before its last [f] digits, with [n / 10^f] no further
    than half a unit of the last place from the magnitude of [x]. *)
Lemma toFixed_value (f : nat) (x : number) :
  (f <= 100)%nat -> in_fixed_range x = true ->
  exists n,
    2 * Z.abs (n * snd (magnitude x) - fst (magnitude x) * 10 ^ Z.of_nat f)
      <= snd (magnitude x) /\
    toFixed f x =
      Some (string_of_list_ascii
              (if is_negative x then "-"%char :: place_point f (digits n)
               else place_point f (digits n))).
Proof.
  intros Hf Hr. unfold in_fixed_range in Hr.
  apply andb_true_iff in Hr as [Hfin Hlt].
  pose proof (magnitude_denominator x) as Hq.
  unfold toFixed. destruct (Nat.ltb_spec 100 f) as [?|_]; [lia|].
  rewrite Hfin, Hlt. simpl.
  destruct (magnitude x) as [p q]. simpl in *.
  exists (nearest_scaled f p q). split; [|reflexivity].
  apply nearest_scaled_close, Hq.
Qed.

Example toFixed_latitude : toFixed 4 (literal 575389 (-4)) = Some "57.5389"%string.
Proof. vm_compute. reflexivity. Qed.

Example toFixed_rounds_half_up : toFixed 0 (literal 25 (-1)) = Some "3"%string.
Proof. vm_compute. reflexivity. Qed.

Example toFixed_uses_the_binary_value :
  toFixed 2 (literal 1005 (-3)) = Some "1.00"%string.
Proof. vm_compute. reflexivity. Qed.

Example toFixed_small_negative : toFixed 2 (literal (-1) (-5)) = Some "-0.00"%string.
Proof. vm_compute. reflexivity. Qed.

Example toFixed_huge : toFixed 2 (literal 1 21) = Some "1e+21"%string.
Proof. vm_compute. reflexivity. Qed.

Example toFixed_infinite : toFixed 2 (literal 1 400) = Some "Infinity"%string.
Proof. vm_compute. reflexivity. Qed.

Example toString_shortest : toString (of_frac 1 3) = "0.3333333333333333"%string.
Proof. vm_compute. reflexivity. Qed.

Example toString_exponent : toString (literal 1 (-7)) = "1e-7"%string.
Proof. vm_compute. reflexivity. Qed.

Example is_fixed_accepts : is_fixed 4 "57.5389" = true /\ is_fixed 2 "-0.00" = true.
Proof. split; reflexivity. Qed.

Example is_fixed_rejects :
  is_fixed 4 "57.538" = false /\ is_fixed 2 "1e+21" = false /\
  is_fixed 2 ".50" = false /\ is_fixed 2 "Infinity" = false.
Proof. repeat split; reflexivity. Qed.

End NumberFacts.

(** * Framing: what a handler can and cannot touch *)
Module Frames.
Import JSNumber JSValue Runtime Platform Component Properties.

Section Respects.
Context (R : World -> World -> Prop) `{!PreOrder R}.

Lemma respects_ret {A} (a : A) : respects R (ret a).
Proof. intros w. reflexivity. Qed.

Lemma respects_throw {A} (e : error) : respects R (@throw A e).
Proof. intros w. reflexivity. Qed.

Lemma respects_lift {A} (r : result A) : respects R (lift r).
Proof. intros w. reflexivity. Qed.

Lemma respects_read {A} (cell : AppState -> A) : respects R (read cell).
Proof. intros w. reflexivity. Qed.

Lemma respects_modify (f : World -> World) :
  (forall w, R w (f w)) -> respects R (modify f).
Proof. intros H w. apply H. Qed.

Lemma respects_bind {A B} (m : M A) (k : A -> M B) :
  respects R m -> (forall a, respects R (k a)) -> respects R (bind m k).
Proof.
  intros Hm Hk w. specialize (Hm w). unfold exec, bind in *.
  destruct (m w) as [[a|e] w1]; simpl in *.
  - transitivity w1; [exact Hm | apply Hk].
  - exact Hm.
Qed.

Lemma respects_try_catch {A} (body : M A) (handler : error -> M A) :
  respects R body -> (forall e, respects R (handler e)) ->
  respects R (try_catch body handler).
Proof.
  intros Hm Hk w. specialize (Hm w). unfold exec, try_catch in *.
  destruct (body w) as [[a|e] w1]; simpl in *.
  - exact Hm.
  - transitivity w1; [exact Hm | apply Hk].
Qed.

(** The weather fetch moves the world along any preorder that admits
    quiet events and the replacement of the weather record. *)
Lemma fetchWeatherData_respects API_KEY net lat lon :
  (forall e w, quiet e = true -> R w (emit e w)) ->
  (forall r w, R w (exec (setWeatherData r) w)) ->
  respects R (fetchWeatherData API_KEY net lat lon).
Proof.
  intros Hemit Hset. unfold fetchWeatherData.
  apply respects_try_catch.
  - destruct (key_rejected API_KEY).
    + apply respects_modify. intros w. apply Hemit. reflexivity.
    + apply respects_bind.
      { apply respects_bind; [|intros; apply respects_lift].
        apply respects_modify. intros w. apply Hemit. reflexivity. }
      intros response. apply respects_bind.
      { destruct (negb (ok response)); [|apply respects_ret].
        apply respects_bind; [apply respects_lift | intros; apply respects_throw]. }
      intros _. apply respects_bind; [apply respects_lift|].
      intros data. destruct (truthy data); [|apply respects_throw].
      apply respects_bind; [apply respects_lift|].
      intros r w. apply Hset.
  - intros e. apply respects_modify. intros w. apply Hemit. reflexivity.
Qed.

End Respects.

#[export] Instance same_except_weather_preorder : PreOrder same_except_weather.
Proof.
  split.
  - intros w. repeat split.
  - intros a b c Hab Hbc. unfold same_except_weather in *.
    destruct Hab as (?&?&?&?&?&?&?), Hbc as (?&?&?&?&?&?&?).
    repeat split; congruence.
Qed.

#[export] Instance quiet_extension_preorder : PreOrder quiet_extension.
Proof.
  split.
  - intros w. split; [|auto]. exists []. rewrite app_nil_r. auto.
  - intros a b c [[e1 [E1 Q1]] (?&?&?)] [[e2 [E2 Q2]] (?&?&?)].
    split; [|repeat split; congruence].
    exists (e1 ++ e2). rewrite E2, E1, <- app_assoc. split; [reflexivity|].
    rewrite forallb_app, Q1, Q2. reflexivity.
Qed.

Lemma fetchWeatherData_quiet API_KEY net lat lon :
  respects quiet_extension (fetchWeatherData API_KEY net lat lon).
Proof.
  apply fetchWeatherData_respects; [apply _| |].
  - intros e w Hq. split; [|auto]. exists [e]. simpl. rewrite Hq. auto.
  - intros r w. split; [|auto]. exists []. simpl. rewrite app_nil_r. auto.
Qed.

Lemma fetchWeatherData_frame API_KEY net lat lon :
  respects same_except_weather (fetchWeatherData API_KEY net lat lon).
Proof.
  apply fetchWeatherData_respects; [apply _| |].
  - intros e w _. repeat split.
  - intros r w. repeat split.
Qed.

(** The fetch swallows every error: it never completes abruptly. *)
Lemma fetchWeatherData_returns API_KEY net lat lon w :
  fst (fetchWeatherData API_KEY net lat lon w) = Normal tt.
Proof.
  unfold fetchWeatherData, try_catch.
  match goal with |- context [match ?b w with _ => _ end] => destruct (b w) as [[[]|e] w1] end;
    reflexivity.
Qed.

End Frames.

(** * The weather fetcher *)
Module FetcherFacts.
Import JSNumber JSValue Runtime Platform Component Properties Frames.
Local Open Scope string_scope.

Ltac run_handler :=
  unfold exec, try_catch, bind, fetch, response_text, response_json,
    console_error, Alert_alert, setWeatherData, read, lift, modify, throw, ret; simpl.

(** A rejected key: one alert, nothing else. *)
Lemma fetch_rejected API_KEY net lat lon w :
  key_rejected API_KEY = true ->
  exec (fetchWeatherData API_KEY net lat lon) w =
  emit (EAlert "API Error" "Please add a valid OpenWeatherMap API key") w.
Proof.
  intros Hk. unfold fetchWeatherData. rewrite Hk. reflexivity.
Qed.

(** An accepted key: the request goes out, and the world afterwards is
    decided by what the [try] block completes with. *)
Lemma fetch_accepted API_KEY net lat lon w :
  key_rejected API_KEY = false ->
  exec (fetchWeatherData API_KEY net lat lon) w =
  match try_outcome net (apiURL API_KEY lat lon) lat lon with
  | Normal r => exec (setWeatherData (Some r)) (emit (EFetch (apiURL API_KEY lat lon)) w)
  | Thrown e => emit (EConsoleError "Weather fetch error:" e)
                     (emit (EFetch (apiURL API_KEY lat lon)) w)
  end.
Proof.
  intros Hk. unfold fetchWeatherData, try_outcome. rewrite Hk.
  generalize (apiURL API_KEY lat lon) as url; intros url.
  run_handler.
  destruct (net url) as [response|e]; simpl; [|reflexivity].
  destruct (ok response); simpl.
  - destruct (json response) as [data|e]; simpl; [|reflexivity].
    destruct (truthy data); simpl; [|reflexivity].
    destruct (weatherRecord lat lon data); reflexivity.
  - destruct (text response); reflexivity.
Qed.

Lemma absent_key_rejected : key_rejected None = true.
Proof. reflexivity. Qed.

Lemma empty_key_rejected : key_rejected (Some EmptyString) = true.
Proof. reflexivity. Qed.

Lemma template_key_rejected : key_rejected (Some "YOUR_ACTUAL_API_KEY_HERE") = true.
Proof. reflexivity. Qed.

Lemma embedded_key_accepted : key_rejected App.API_KEY = false.
Proof. reflexivity. Qed.

(** With a key that passes the guard the request goes out first, and
    nothing that follows is an alert. *)
Lemma accepted_key_log API_KEY net lat lon w :
  key_rejected API_KEY = false ->
  exists rest,
    log (exec (fetchWeatherData API_KEY net lat lon) w) =
      (log w ++ EFetch (apiURL API_KEY lat lon) :: rest)%list /\
    existsb is_alert rest = false.
Proof.
  intros Hk. rewrite fetch_accepted by assumption.
  destruct (try_outcome _ _ _ _) as [r|e]; simpl.
  - exists []. auto.
  - exists [EConsoleError "Weather fetch error:" e].
    rewrite <- app_assoc. auto.
Qed.

(** C1. With the key that is written in the source, ['Your API key'], the
    guard of line 39 does not fire: whatever the network answers, the
    first effect of the fetch is the network request, and no alert is
    raised at all. *)
Theorem embedded_key_reaches_network (net : network) (lat lon : number) (w : World) :
  exists rest,
    log (exec (App.fetchWeatherData net lat lon) w) =
      (log w ++ EFetch (App.apiURL lat lon) :: rest)%list /\
    existsb is_alert rest = false.
Proof. apply accepted_key_log, embedded_key_accepted. Qed.

Lemma valka_record_built :
  weatherRecord valka_lat valka_lon valka_body = Normal valka_record.
Proof. vm_compute. reflexivity. Qed.

Lemma valka_url :
  App.apiURL valka_lat valka_lon =
  "https://api.openweathermap.org/data/2.5/weather?lat=57.5389&lon=25.425727&appid=Your API key&units=metric".
Proof. vm_compute. reflexivity. Qed.

(** C2. Fetching for latitude 57.5389 and longitude 25.425727 with a key
    that passes the guard (the shipped one does), when the response is
    successful and its body is the Valka body, stores exactly the record
    [{place: "Valka", latitude: "57.5389", longitude: "25.4257",
    temp: "18.46", pressure: 1012, humidity: 60, description: "clear sky"}]
    as the current record; the only effect besides is the request
    itself. *)
Theorem valka_scenario
    (API_KEY : option string) (net : network) (resp : Response) (w : World) :
  key_rejected API_KEY = false ->
  net (apiURL API_KEY valka_lat valka_lon) = Normal resp ->
  ok resp = true ->
  json resp = Normal valka_body ->
  exec (fetchWeatherData API_KEY net valka_lat valka_lon) w =
    with_app (store_record valka_record)
             (emit (EFetch (apiURL API_KEY valka_lat valka_lon)) w) /\
  weatherData (app (exec (fetchWeatherData API_KEY net valka_lat valka_lon) w)) =
    Some valka_record.
Proof.
  intros Hk Hnet Hok Hjson.
  rewrite fetch_accepted by assumption.
  unfold try_outcome. rewrite Hnet. cbn [and_then]. rewrite Hok, Hjson.
  cbn [and_then negb]. change (truthy valka_body) with true. cbv iota.
  rewrite valka_record_built. split; reflexivity.
Qed.

Lemma valka_scenario_witness :
  key_rejected App.API_KEY = false /\
  ok valka_response = true /\
  json valka_response = Normal valka_body /\
  weatherData (app (exec (App.fetchWeatherData valka_net valka_lat valka_lon)
                         initial_world)) = Some valka_record.
Proof.
  split; [reflexivity|]. split; [reflexivity|]. split; [reflexivity|].
  apply (valka_scenario App.API_KEY valka_net valka_response initial_world);
    reflexivity.
Defined.

(** C3. When the request has gone out (the key passed the guard) and the
    response has a non-success status, the fetch reads the error body,
    logs one error carrying the status and that body, raises no alert,
    and leaves every state cell, the stored weather record among them,
    as it was. *)
Theorem http_error_logged_only
    (API_KEY : option string) (net : network) (lat lon : number)
    (resp : Response) (w : World) :
  key_rejected API_KEY = false ->
  net (apiURL API_KEY lat lon) = Normal resp ->
  ok resp = false ->
  let w' := exec (fetchWeatherData API_KEY net lat lon) w in
  app w' = app w /\
  exists e,
    log w' = (log w ++ [EFetch (apiURL API_KEY lat lon);
                        EConsoleError "Weather fetch error:" e])%list /\
    forall errorText, text resp = Normal errorText ->
      e = Error ("HTTP error! status: " ++ toString (status resp) ++ ", " ++ errorText).
Proof.
  intros Hk Hnet Hok w'. subst w'.
  rewrite fetch_accepted by assumption.
  unfold try_outcome. rewrite Hnet. simpl. rewrite Hok. simpl.
  destruct (text resp) as [body|e]; simpl.
  - split; [reflexivity|]. eexists. rewrite <- app_assoc. split; [reflexivity|].
    intros ? [= <-]. reflexivity.
  - split; [reflexivity|]. exists e. rewrite <- app_assoc. split; [reflexivity|].
    intros ? [=].
Qed.

Lemma http_error_logged_only_witness :
  key_rejected App.API_KEY = false /\
  ok unauthorized_response = false /\
  app (exec (App.fetchWeatherData unauthorized_net valka_lat valka_lon) world_with_valka)
  = app world_with_valka.
Proof.
  split; [reflexivity|]. split; [reflexivity|].
  apply (http_error_logged_only App.API_KEY unauthorized_net valka_lat valka_lon
                                unauthorized_response world_with_valka);
    reflexivity.
Defined.

Lemma number_toFixed_4 (x : number) : exists s, number_toFixed x 4 = Normal s.
Proof.
  unfold number_toFixed, toFixed. simpl.
  destruct (negb (is_finite x)); [eauto|].
  destruct (negb (abs_lt_1e21 x)); [eauto|].
  destruct (magnitude x). eauto.
Qed.

Lemma get_defined (v : value) (k : string) :
  nullish v = false -> get v k = Normal (member v k).
Proof. intros H. unfold get. rewrite H. reflexivity. Qed.

Lemma get_normal (v r : value) (k : string) :
  get v k = Normal r -> nullish v = false /\ r = member v k.
Proof. unfold get. destruct (nullish v); [discriminate|]. intros [= <-]. auto. Qed.

Lemma weatherRecord_lacking (lat lon : number) (data : value) :
  lacks_required data -> exists e, weatherRecord lat lon data = Thrown e.
Proof.
  intros Hlack. unfold weatherRecord.
  destruct (get data "name") as [name|e] eqn:Hname; simpl; [|eauto].
  destruct (number_toFixed_4 lat) as [la ->], (number_toFixed_4 lon) as [lo ->]. simpl.
  apply get_normal in Hname as [Hnn _].
  rewrite !(get_defined data) by assumption. simpl.
  destruct (get (member data "main") "temp") as [temp0|e] eqn:Htemp; simpl; [|eauto].
  destruct (value_toFixed temp0 2) as [temp|e] eqn:Hfix; simpl; [|eauto].
  apply get_normal in Htemp as [Hmain ->].
  rewrite !(get_defined (member data "main")) by assumption. simpl.
  destruct Hlack as [H | [H | H]].
  - rewrite H in Hmain. discriminate.
  - rewrite H in Hfix. discriminate.
  - rewrite H. simpl. eauto.
Qed.

(** C4. When the request has gone out and the response is successful but
    its body lacks the [main] block, the temperature inside it, or the
    [weather] array, the fetch logs one error and stores no record: every
    state cell is as it was and no alert is raised. *)
Theorem malformed_body_logged
    (API_KEY : option string) (net : network) (lat lon : number)
    (resp : Response) (data : value) (w : World) :
  key_rejected API_KEY = false ->
  net (apiURL API_KEY lat lon) = Normal resp ->
  ok resp = true ->
  json resp = Normal data ->
  lacks_required data ->
  let w' := exec (fetchWeatherData API_KEY net lat lon) w in
  app w' = app w /\
  exists e,
    log w' = (log w ++ [EFetch (apiURL API_KEY lat lon);
                        EConsoleError "Weather fetch error:" e])%list.
Proof.
  intros Hk Hnet Hok Hjson Hlack w'. subst w'.
  rewrite fetch_accepted by assumption.
  unfold try_outcome. rewrite Hnet. simpl. rewrite Hok, Hjson. simpl.
  destruct (truthy data).
  - destruct (weatherRecord_lacking lat lon data Hlack) as [e ->]. simpl.
    split; [reflexivity|]. exists e. rewrite <- app_assoc. reflexivity.
  - simpl. split; [reflexivity|]. eexists. rewrite <- app_assoc. reflexivity.
Qed.

Lemma malformed_body_logged_witness :
  key_rejected App.API_KEY = false /\
  lacks_required no_main_body /\
  app (exec (App.fetchWeatherData no_main_net valka_lat valka_lon) world_with_valka)
  = app world_with_valka.
Proof.
  split; [reflexivity|]. split; [left; reflexivity|].
  apply (malformed_body_logged App.API_KEY no_main_net valka_lat valka_lon
                               no_main_response no_main_body world_with_valka);
    [reflexivity | reflexivity | reflexivity | reflexivity | left; reflexivity].
Defined.

Lemma try_outcome_normal net url lat lon r :
  try_outcome net url lat lon = Normal r ->
  exists resp data,
    net url = Normal resp /\ ok resp = true /\ json resp = Normal data /\
    truthy data = true /\ weatherRecord lat lon data = Normal r.
Proof.
  unfold try_outcome. destruct (net url) as [resp|e] eqn:Hnet; simpl; [|discriminate].
  destruct (ok resp) eqn:Hok; simpl.
  - destruct (json resp) as [data|e] eqn:Hjson; simpl; [|discriminate].
    destruct (truthy data) eqn:Ht; [|discriminate].
    intros H. exists resp, data. repeat split; assumption || reflexivity.
  - destruct (text resp); discriminate.
Qed.

Lemma number_toFixed_normal x f s :
  number_toFixed x f = Normal s -> toFixed f x = Some s.
Proof. unfold number_toFixed. destruct (toFixed f x); [intros [= ->]; reflexivity | discriminate]. Qed.

Lemma value_toFixed_normal v f s :
  value_toFixed v f = Normal s -> exists t, v = VNumber t /\ toFixed f t = Some s.
Proof.
  destruct v; simpl; try discriminate.
  intros H. eexists; split; [reflexivity | apply number_toFixed_normal, H].
Qed.

Lemma weatherRecord_normal lat lon data r :
  weatherRecord lat lon data = Normal r ->
  exists t,
    member (member data "main") "temp" = VNumber t /\
    toFixed 4 lat = Some (Weather.latitude r) /\
    toFixed 4 lon = Some (Weather.longitude r) /\
    toFixed 2 t = Some (Weather.temp r).
Proof.
  unfold weatherRecord.
  destruct (get data "name") as [name|e] eqn:Hname; simpl; [|discriminate].
  destruct (number_toFixed lat 4) as [la|e] eqn:Hla; simpl; [|discriminate].
  destruct (number_toFixed lon 4) as [lo|e] eqn:Hlo; simpl; [|discriminate].
  apply get_normal in Hname as [Hnn _].
  rewrite !(get_defined data) by assumption. simpl.
  destruct (get (member data "main") "temp") as [temp0|e] eqn:Htemp; simpl; [|discriminate].
  destruct (value_toFixed temp0 2) as [temp|e] eqn:Hfix; simpl; [|discriminate].
  apply get_normal in Htemp as [Hmain ->].
  rewrite !(get_defined (member data "main")) by assumption. simpl.
  destruct (get0 (member data "weather")) as [w0|e]; simpl; [|discriminate].
  destruct (get w0 "description") as [d|e]; simpl; [|discriminate].
  intros [= <-]. simpl.
  apply value_toFixed_normal in Hfix as [t [Ht Hfix]].
  exists t. auto using number_toFixed_normal.
Qed.

Lemma is_fixed_of_toFixed f x s :
  (0 < f <= 100)%nat -> toFixed f x = Some s -> in_fixed_range x = true ->
  is_fixed f s = true.
Proof.
  intros Hf Hs Hr. destruct (NumberFacts.toFixed_in_range f x Hf Hr) as [s' [Hs' Hfix]].
  congruence.
Qed.

(** C5, as stated, fails: a successful response whose temperature is
    [1e21] produces a record whose temperature field is ["1e+21"], which
    does not have two decimal places. *)
Lemma huge_temperature_not_two_decimals :
  exists r,
    weatherData (app (exec (App.fetchWeatherData huge_temperature_net valka_lat valka_lon)
                           initial_world)) = Some r /\
    Weather.temp r = "1e+21" /\
    is_fixed 2 (Weather.temp r) = false.
Proof.
  eexists. split; [vm_compute; reflexivity|]. split; reflexivity.
Qed.

(** C5, amended. Every record the fetch newly stores has, as latitude and
    longitude, [toFixed(4)] of the input coordinates and, as temperature,
    [toFixed(2)] of the temperature of the response; each of the three is
    digits, a point and exactly 4 (resp. 2) digits whenever the number
    formatted is finite and below [10^21] in magnitude. *)
Theorem record_fields_fixed
    (API_KEY : option string) (net : network) (lat lon : number) (w : World)
    (r : WeatherRecord) :
  weatherData (app (exec (fetchWeatherData API_KEY net lat lon) w)) = Some r ->
  weatherData (app w) <> Some r ->
  exists t resp data,
    net (apiURL API_KEY lat lon) = Normal resp /\
    json resp = Normal data /\
    member (member data "main") "temp" = VNumber t /\
    toFixed 4 lat = Some (Weather.latitude r) /\
    toFixed 4 lon = Some (Weather.longitude r) /\
    toFixed 2 t = Some (Weather.temp r) /\
    (in_fixed_range lat = true -> is_fixed 4 (Weather.latitude r) = true) /\
    (in_fixed_range lon = true -> is_fixed 4 (Weather.longitude r) = true) /\
    (in_fixed_range t = true -> is_fixed 2 (Weather.temp r) = true).
Proof.
  intros Hafter Hbefore.
  destruct (key_rejected API_KEY) eqn:Hk.
  { rewrite fetch_rejected in Hafter by assumption. contradiction. }
  rewrite fetch_accepted in Hafter by assumption.
  destruct (try_outcome net (apiURL API_KEY lat lon) lat lon) as [r'|e] eqn:Hout;
    [|contradiction].
  simpl in Hafter. injection Hafter as ->.
  apply try_outcome_normal in Hout as (resp & data & Hnet & _ & Hjson & _ & Hrec).
  apply weatherRecord_normal in Hrec as (t & Ht & Hla & Hlo & Hte).
  exists t, resp, data. repeat split; try assumption.
  - intros Hr. apply (is_fixed_of_toFixed 4 lat); [lia | assumption | assumption].
  - intros Hr. apply (is_fixed_of_toFixed 4 lon); [lia | assumption | assumption].
  - intros Hr. apply (is_fixed_of_toFixed 2 t); [lia | assumption | assumption].
Qed.

Lemma record_fields_fixed_witness :
  in_fixed_range valka_lat = true /\
  is_fixed 4 (Weather.latitude valka_record) = true.
Proof.
  split; [reflexivity|].
  destruct (record_fields_fixed App.API_KEY valka_net valka_lat valka_lon initial_world
              valka_record) as (t & resp & data & _ & _ & _ & _ & _ & _ & Hlat & _).
  - vm_compute. reflexivity.
  - discriminate.
  - apply Hlat. reflexivity.
Defined.

(** C9. Whatever the key, the coordinates and the outcome, the fetch
    leaves the coordinates, the dialog flag, the location error, the
    subscription ref and the location service as they were: of the state,
    only the weather record can differ. *)
Theorem fetch_touches_only_weather
    (API_KEY : option string) (net : network) (lat lon : number) (w : World) :
  let w' := exec (fetchWeatherData API_KEY net lat lon) w in
  latitude (app w') = latitude (app w) /\
  longitude (app w') = longitude (app w) /\
  visible (app w') = visible (app w) /\
  locationError (app w') = locationError (app w) /\
  locationSubscription (app w') = locationSubscription (app w) /\
  active w' = active w /\
  next_id w' = next_id w.
Proof. exact (fetchWeatherData_frame API_KEY net lat lon w). Qed.

End FetcherFacts.

(** * The location tracker and the dialog *)
Module TrackerFacts.
Import JSNumber JSValue Runtime Platform Component Properties Frames.
Local Open Scope string_scope.
Local Open Scope list_scope.

Ltac run_tracker :=
  unfold exec, try_catch, bind, requestForegroundPermissionsAsync,
    setLocationError, read, remove, watchPositionAsync, set_locationSubscription,
    Alert_alert, lift, modify, ret, throw; simpl.

(** C6. When the permission request answers any status other than
    ['granted'], starting the tracker sets the location error to the fixed
    message and does nothing else: the only effect is the permission
    request itself, no subscription is created or removed, no request goes
    to the network, and every other state cell is as it was. *)
Theorem permission_denied_is_terminal
    (status : string) (watch : option error) (w : World) :
  status <> "granted" ->
  exec (App.startLocationTracking (Normal status) watch) w =
  {| app := store_location_error "Permission to access location was denied" (app w);
     log := (log w ++ [ERequestPermission])%list;
     active := active w;
     next_id := next_id w |}.
Proof.
  intros Hs. unfold App.startLocationTracking, startLocationTracking. run_tracker.
  destruct (String.eqb_spec status "granted"); [contradiction | reflexivity].
Qed.

Lemma permission_denied_is_terminal_witness :
  "denied" <> "granted" /\
  active (exec (App.startLocationTracking (Normal "denied") None) initial_world) = ∅.
Proof.
  split; [discriminate|].
  rewrite (permission_denied_is_terminal "denied" None initial_world); [reflexivity|].
  discriminate.
Defined.

(** *** The subscription invariant *)

Lemma replay_snoc (l : list event) (e : event) :
  replay (l ++ [e]) = replay_event (replay l) e.
Proof. unfold replay. rewrite foldl_app. reflexivity. Qed.

Lemma replay_quiet (l : list event) (e : event) :
  quiet e = true -> replay (l ++ [e]) = replay l.
Proof. intros Hq. rewrite replay_snoc. destruct e; simpl in *; congruence. Qed.

Lemma orderly_nil : orderly [].
Proof.
  intros l1 l2 H. symmetry in H. apply app_eq_nil in H as [-> ->].
  split; [|intros ? ? [=]]. change (replay []) with (∅ : gset nat).
  rewrite size_empty. lia.
Qed.

Lemma orderly_snoc (l : list event) (e : event) :
  orderly l ->
  (size (replay (l ++ [e])) <= 1)%nat ->
  (forall id, e = EWatch id -> replay l = ∅) ->
  orderly (l ++ [e]).
Proof.
  intros Hl Hsize Hfresh l1 l2 Hsplit.
  destruct l2 as [|x l2 _] using rev_ind.
  - rewrite app_nil_r in Hsplit. subst l1. split; [assumption | intros ? ? [=]].
  - rewrite app_assoc in Hsplit. apply app_inj_tail in Hsplit as [-> <-].
    destruct (Hl l1 l2 eq_refl) as [Hs Hw]. split; [assumption|].
    intros id rest Hrest. destruct l2 as [|y l2].
    + simpl in Hrest. injection Hrest as -> _.
      rewrite app_nil_r in Hfresh. eauto.
    + simpl in Hrest. injection Hrest as -> _. eauto.
Qed.

Lemma tracked_quiet l live ref e :
  tracked l live ref -> quiet e = true -> tracked (l ++ [e]) live ref.
Proof.
  intros (Ho & Hr & Href) Hq. pose proof (replay_quiet l e Hq) as Hrq.
  split; [|split; [congruence | assumption]].
  apply orderly_snoc; [assumption | |].
  - rewrite Hrq. apply (Ho l []). rewrite app_nil_r. reflexivity.
  - intros id ->. discriminate.
Qed.

Lemma tracked_quiet_app l live ref evs :
  tracked l live ref -> forallb quiet evs = true -> tracked (l ++ evs) live ref.
Proof.
  revert l. induction evs as [|e evs IH]; intros l Ht Hq.
  - rewrite app_nil_r. assumption.
  - simpl in Hq. apply andb_true_iff in Hq as [He Hevs].
    change (e :: evs) with ([e] ++ evs). rewrite app_assoc.
    apply IH; [apply tracked_quiet|]; assumption.
Qed.

Lemma idle_tracked l live ref : idle l live -> tracked l live ref.
Proof.
  intros (Ho & Hr & ->). split; [|split]; try assumption.
  intros h Hh. apply not_elem_of_empty in Hh. contradiction.
Qed.

Lemma tracked_none l live : tracked l live None -> idle l live.
Proof.
  intros (Ho & Hr & Href). split; [|split]; try assumption.
  apply leibniz_equiv, elem_of_equiv_empty. intros h Hh.
  specialize (Href h Hh). discriminate.
Qed.

Lemma tracked_remove l live h :
  tracked l live (Some h) -> idle (l ++ [ERemove h]) (live ∖ {[ h ]}).
Proof.
  intros (Ho & Hr & Href).
  assert (Hempty : live ∖ {[ h ]} = ∅).
  { apply leibniz_equiv, elem_of_equiv_empty. intros x Hx.
    apply elem_of_difference in Hx as [Hin Hne].
    specialize (Href x Hin). injection Href as ->.
    apply Hne, elem_of_singleton. reflexivity. }
  assert (Hreplay : replay (l ++ [ERemove h]) = live ∖ {[ h ]}).
  { rewrite replay_snoc. simpl. congruence. }
  split; [|split; assumption].
  apply orderly_snoc; [assumption | | intros ? [=]].
  rewrite Hreplay, Hempty, size_empty. lia.
Qed.

Lemma idle_quiet l live e : idle l live -> quiet e = true -> idle (l ++ [e]) live.
Proof.
  intros (Ho & Hr & He) Hq.
  destruct (tracked_quiet l live None e) as (Ho' & Hr' & _); [|assumption|].
  - apply idle_tracked. split; [|split]; assumption.
  - split; [|split]; assumption.
Qed.

Lemma idle_watch l live id :
  idle l live -> tracked (l ++ [EWatch id]) (live ∪ {[ id ]}) (Some id).
Proof.
  intros (Ho & Hr & ->).
  assert (Hreplay : replay (l ++ [EWatch id]) = ∅ ∪ {[ id ]}).
  { rewrite replay_snoc. simpl. congruence. }
  split; [|split; [assumption|]].
  - apply orderly_snoc; [assumption | | intros; assumption].
    rewrite Hreplay, union_empty_l_L, size_singleton. lia.
  - intros h Hh. rewrite union_empty_l_L in Hh.
    apply elem_of_singleton in Hh. congruence.
Qed.

Lemma exec_bind {A B} (m : M A) (k : A -> M B) (a : A) (w : World) :
  fst (m w) = Normal a -> exec (bind m k) w = exec (k a) (exec m w).
Proof.
  unfold exec, bind. destruct (m w) as [r w1]. simpl. intros ->. reflexivity.
Qed.

Lemma getWeather_unfold API_KEY net w :
  exec (getWeather API_KEY net) w =
  exec showDialog
       (exec (fetchWeatherData API_KEY net (latitude (app w)) (longitude (app w))) w).
Proof.
  unfold getWeather.
  transitivity
    (exec (bind (fetchWeatherData API_KEY net (latitude (app w)) (longitude (app w)))
                (fun _ => showDialog)) w); [reflexivity|].
  apply (exec_bind _ (fun _ => showDialog) tt), fetchWeatherData_returns.
Qed.

Lemma locationCallback_unfold API_KEY net lat lon w :
  exec (locationCallback API_KEY net lat lon) w =
  exec (fetchWeatherData API_KEY net lat lon)
       (exec (setLongitude lon) (exec (setLatitude lat) w)).
Proof. reflexivity. Qed.

(** *** What the tracker leaves alone *)

Lemma start_keeps_view perm watch w :
  let w' := exec (startLocationTracking perm watch) w in
  latitude (app w') = latitude (app w) /\
  longitude (app w') = longitude (app w) /\
  weatherData (app w') = weatherData (app w) /\
  visible (app w') = visible (app w).
Proof.
  unfold startLocationTracking. run_tracker.
  destruct perm as [status|e]; simpl; [|auto].
  destruct (String.eqb status "granted"); simpl; [|auto].
  destruct (locationSubscription (app w)); simpl; destruct watch; simpl; auto.
Qed.

Lemma cleanup_keeps_app w : app (exec cleanup w) = app w.
Proof.
  unfold cleanup. run_tracker. destruct (locationSubscription (app w)); reflexivity.
Qed.

Lemma step_visible API_KEY a w :
  visible (app (step API_KEY a w)) =
  match a with
  | PressShowWeather _ => true
  | Dismiss => false
  | _ => visible (app w)
  end.
Proof.
  destruct a as [perm watch| |h lat lon net|net|]; simpl.
  - apply start_keeps_view.
  - rewrite cleanup_keeps_app. reflexivity.
  - destruct (decide (h ∈ active w)); [|reflexivity].
    rewrite locationCallback_unfold.
    destruct (fetchWeatherData_frame API_KEY net lat lon
                (exec (setLongitude lon) (exec (setLatitude lat) w)))
      as (_ & _ & Hv & _).
    rewrite Hv. reflexivity.
  - rewrite getWeather_unfold. reflexivity.
  - reflexivity.
Qed.

(** C8. The dialog flag is a two-state machine: it starts closed; a step
    of the component sets it to open exactly when the step is a press of
    the show-weather button, sets it to closed exactly when the step is a
    dismissal, and leaves it as it was for every other step (tracker
    start, unmount, position update with the fetch it triggers, whatever
    the fetch's outcome).  The press also runs the weather fetch with the
    coordinates the state holds at that moment, and a fetch on its own,
    whether data arrives or an error does, leaves the flag as it was. *)
Theorem dialog_two_states (API_KEY : option string) :
  visible initial_state = false /\
  (forall a w,
     visible (app (step API_KEY a w)) =
     match a with
     | PressShowWeather _ => true
     | Dismiss => false
     | _ => visible (app w)
     end) /\
  (forall net w,
     step API_KEY (PressShowWeather net) w =
     exec showDialog
          (exec (fetchWeatherData API_KEY net (latitude (app w)) (longitude (app w))) w)) /\
  (forall net lat lon w,
     visible (app (exec (fetchWeatherData API_KEY net lat lon) w)) = visible (app w)).
Proof.
  split; [reflexivity|]. split; [|split].
  - intros a w. apply step_visible.
  - intros net w. apply getWeather_unfold.
  - intros net lat lon w. apply (fetchWeatherData_frame API_KEY net lat lon w).
Qed.

Lemma step_keeps_coordinates API_KEY a w :
  is_position a = false ->
  latitude (app (step API_KEY a w)) = latitude (app w) /\
  longitude (app (step API_KEY a w)) = longitude (app w).
Proof.
  destruct a as [perm watch| |h lat lon net|net|]; simpl; intros Hp.
  - destruct (start_keeps_view perm watch w) as (? & ? & _). auto.
  - rewrite cleanup_keeps_app. auto.
  - discriminate.
  - rewrite getWeather_unfold.
    destruct (fetchWeatherData_frame API_KEY net (latitude (app w)) (longitude (app w)) w)
      as (Hla & Hlo & _).
    split; [exact Hla | exact Hlo].
  - auto.
Qed.

Lemma run_keeps_coordinates API_KEY tr w :
  existsb is_position tr = false ->
  latitude (app (run API_KEY tr w)) = latitude (app w) /\
  longitude (app (run API_KEY tr w)) = longitude (app w).
Proof.
  revert w. induction tr as [|a tr IH]; intros w Hp; simpl in *; [auto|].
  apply orb_false_iff in Hp as [Ha Htr].
  destruct (IH (step API_KEY a w) Htr) as [Hla Hlo].
  destruct (step_keeps_coordinates API_KEY a w Ha) as [Hla' Hlo'].
  split; congruence.
Qed.

Lemma initial_url :
  App.apiURL (literal 57538900 (-6)) (literal 25425727 (-6)) =
  "https://api.openweathermap.org/data/2.5/weather?lat=57.5389&lon=25.425727&appid=Your API key&units=metric".
Proof. vm_compute. reflexivity. Qed.

(** C10. As long as no position update has been delivered, the
    coordinates are the ones written in the source, 57.538900 and
    25.425727; a press of the show-weather button then runs the fetch for
    exactly that point, and the request that goes out names it. *)
Theorem initial_coordinates (tr : list action) (net : network) :
  existsb is_position tr = false ->
  let w := App.run tr initial_world in
  latitude (app w) = literal 57538900 (-6) /\
  longitude (app w) = literal 25425727 (-6) /\
  App.step (PressShowWeather net) w =
    exec showDialog
         (exec (App.fetchWeatherData net (literal 57538900 (-6)) (literal 25425727 (-6)))
               w) /\
  exists rest,
    log (App.step (PressShowWeather net) w) =
    log w ++
    EFetch "https://api.openweathermap.org/data/2.5/weather?lat=57.5389&lon=25.425727&appid=Your API key&units=metric"
    :: rest.
Proof.
  intros Hp w.
  destruct (run_keeps_coordinates App.API_KEY tr initial_world Hp) as [Hla Hlo].
  fold (App.run tr initial_world) in Hla, Hlo. fold w in Hla, Hlo.
  change (latitude (app initial_world)) with (literal 57538900 (-6)) in Hla.
  change (longitude (app initial_world)) with (literal 25425727 (-6)) in Hlo.
  assert (Hstep : App.step (PressShowWeather net) w =
    exec showDialog
         (exec (App.fetchWeatherData net (literal 57538900 (-6)) (literal 25425727 (-6)))
               w)).
  { unfold App.step, step. rewrite getWeather_unfold, Hla, Hlo. reflexivity. }
  split; [assumption|]. split; [assumption|]. split; [assumption|].
  rewrite Hstep.
  destruct (FetcherFacts.accepted_key_log App.API_KEY net (literal 57538900 (-6))
              (literal 25425727 (-6)) w FetcherFacts.embedded_key_accepted)
    as (rest & Hlog & _).
  exists rest. rewrite <- initial_url. exact Hlog.
Qed.

Lemma initial_coordinates_witness :
  existsb is_position [Start (Normal "granted") None; Dismiss] = false /\
  latitude (app (App.run [Start (Normal "granted") None; Dismiss] initial_world)) =
    literal 57538900 (-6).
Proof.
  split; [reflexivity|].
  apply (initial_coordinates [Start (Normal "granted") None; Dismiss]
                             valka_net).
  reflexivity.
Defined.

End TrackerFacts.

(** * More about the weather fetcher *)
Module FetcherMore.
Import JSNumber JSValue Runtime Platform Component Properties Outcomes Frames.
Import FetcherFacts.
Local Open Scope string_scope.

Lemma truthy_defined (v : value) : truthy v = true -> nullish v = false.
Proof. destruct v; simpl; congruence. Qed.

Lemma member_number_defined (v : value) (k : string) (t : number) :
  member v k = VNumber t -> nullish v = false.
Proof. destruct v; simpl; congruence. Qed.

Lemma first_defined (v : value) : nullish (first v) = false -> nullish v = false.
Proof. destruct v; simpl; congruence. Qed.

Lemma number_toFixed_some (x : number) (f : nat) :
  (f <= 100)%nat -> exists s, toFixed f x = Some s /\ number_toFixed x f = Normal s.
Proof.
  intros Hf. unfold number_toFixed, toFixed.
  destruct (Nat.ltb_spec 100 f) as [?|_]; [lia|].
  destruct (negb (is_finite x)); [eauto|].
  destruct (negb (abs_lt_1e21 x)); [eauto|].
  destruct (magnitude x). eauto.
Qed.

(** The object literal of lines 58-66 completes normally exactly when the
    temperature is a number and [weather[0]] is neither [undefined] nor
    [null]; the record it builds is then [built_record]. *)
Lemma weatherRecord_iff (lat lon : number) (data : value) (r : WeatherRecord) :
  truthy data = true ->
  weatherRecord lat lon data = Normal r <->
  exists t la lo te,
    member (member data "main") "temp" = VNumber t /\
    nullish (first (member data "weather")) = false /\
    toFixed 4 lat = Some la /\ toFixed 4 lon = Some lo /\ toFixed 2 t = Some te /\
    r = built_record data la lo te.
Proof.
  intros Htruthy. pose proof (truthy_defined data Htruthy) as Hdata.
  destruct (number_toFixed_some lat 4 ltac:(lia)) as (la & Hla & Hla').
  destruct (number_toFixed_some lon 4 ltac:(lia)) as (lo & Hlo & Hlo').
  unfold weatherRecord. rewrite !(get_defined data) by assumption.
  rewrite Hla', Hlo'. cbn [and_then].
  split.
  - destruct (get (member data "main") "temp") as [temp0|e] eqn:Htemp; cbn [and_then];
      [|discriminate].
    destruct (value_toFixed temp0 2) as [te|e] eqn:Hfix; cbn [and_then]; [|discriminate].
    apply get_normal in Htemp as [Hmain ->].
    rewrite !(get_defined (member data "main")) by assumption. cbn [and_then].
    destruct (get0 (member data "weather")) as [w0|e] eqn:Hw0; cbn [and_then];
      [|discriminate].
    destruct (get w0 "description") as [d|e] eqn:Hd; cbn [and_then]; [|discriminate].
    intros [= <-].
    apply value_toFixed_normal in Hfix as (t & Ht & Hte).
    apply get_normal in Hd as [Hw0n ->].
    unfold get0 in Hw0. destruct (nullish (member data "weather")); [discriminate|].
    injection Hw0 as <-.
    exists t, la, lo, te. repeat split; assumption.
  - intros (t & la' & lo' & te & Ht & Hw0 & Hla2 & Hlo2 & Hte & ->).
    assert (la' = la) by congruence. assert (lo' = lo) by congruence. subst la' lo'.
    pose proof (member_number_defined _ _ _ Ht) as Hmain.
    pose proof (first_defined _ Hw0) as Hweather.
    rewrite !(get_defined (member data "main")) by assumption. cbn [and_then].
    rewrite Ht. unfold value_toFixed, number_toFixed. rewrite Hte. cbn [and_then].
    unfold get0. rewrite Hweather. cbn [and_then].
    rewrite (get_defined (first (member data "weather"))) by assumption.
    reflexivity.
Qed.

Lemma getWeather_returns API_KEY net w : fst (getWeather API_KEY net w) = Normal tt.
Proof.
  unfold getWeather, bind, read. simpl.
  pose proof (fetchWeatherData_returns API_KEY net (latitude (app w)) (longitude (app w)) w)
    as Hf.
  destruct (fetchWeatherData API_KEY net (latitude (app w)) (longitude (app w)) w)
    as [r w1].
  simpl in Hf. subst r. reflexivity.
Qed.

Lemma startLocationTracking_returns perm watch w :
  fst (startLocationTracking perm watch w) = Normal tt.
Proof.
  unfold startLocationTracking. TrackerFacts.run_tracker.
  destruct perm as [status|e]; simpl; [|reflexivity].
  destruct (String.eqb status "granted"); simpl; [|reflexivity].
  destruct (locationSubscription (app w)); simpl; destruct watch; reflexivity.
Qed.

(** X1. No handler of the component ever completes abruptly: the fetch,
    the tracker start, the location callback, the button handler and the
    effect cleanup all return normally whatever the platform answers, so
    no promise they return is ever rejected. *)
Theorem handlers_never_reject (API_KEY : option string) :
  (forall net lat lon w, fst (fetchWeatherData API_KEY net lat lon w) = Normal tt) /\
  (forall perm watch w, fst (startLocationTracking perm watch w) = Normal tt) /\
  (forall net lat lon w, fst (locationCallback API_KEY net lat lon w) = Normal tt) /\
  (forall net w, fst (getWeather API_KEY net w) = Normal tt) /\
  (forall w, fst (cleanup w) = Normal tt).
Proof.
  split; [intros; apply fetchWeatherData_returns|].
  split; [intros; apply startLocationTracking_returns|].
  split; [intros net lat lon w; apply (fetchWeatherData_returns API_KEY net lat lon)|].
  split; [intros; apply getWeather_returns|].
  intros w. unfold cleanup, bind, read. simpl.
  destruct (locationSubscription (app w)); reflexivity.
Qed.

Lemma key_rejected_iff (API_KEY : option string) :
  key_rejected API_KEY = true <->
  API_KEY = None \/ API_KEY = Some EmptyString \/
  API_KEY = Some "YOUR_ACTUAL_API_KEY_HERE".
Proof.
  destruct API_KEY as [k|]; simpl; [|tauto].
  destruct (String.eqb_spec k EmptyString) as [->|Hne]; simpl; [tauto|].
  destruct (String.eqb_spec k "YOUR_ACTUAL_API_KEY_HERE") as [->|Hnt]; [tauto|].
  split; [discriminate|]. intros [H|[H|H]]; congruence.
Qed.

(** X2. The guard of line 39 fires exactly for a key that is absent,
    empty or ['YOUR_ACTUAL_API_KEY_HERE'].  When it fires, the whole effect
    of the fetch is one alert: no request, no log entry, no state change.
    For every other key the request goes out first and no alert is ever
    raised. *)
Theorem guard_fires_exactly
    (API_KEY : option string) (net : network) (lat lon : number) (w : World) :
  (key_rejected API_KEY = true <->
   API_KEY = None \/ API_KEY = Some EmptyString \/
   API_KEY = Some "YOUR_ACTUAL_API_KEY_HERE") /\
  (key_rejected API_KEY = true ->
   exec (fetchWeatherData API_KEY net lat lon) w =
   emit (EAlert "API Error" "Please add a valid OpenWeatherMap API key") w) /\
  (key_rejected API_KEY = false ->
   exists rest,
     log (exec (fetchWeatherData API_KEY net lat lon) w) =
       (log w ++ EFetch (apiURL API_KEY lat lon) :: rest)%list /\
     existsb is_alert rest = false).
Proof.
  split; [apply key_rejected_iff|]. split.
  - apply fetch_rejected.
  - apply accepted_key_log.
Qed.

Lemma guard_fires_exactly_witness :
  key_rejected None = true /\
  log (exec (fetchWeatherData None valka_net valka_lat valka_lon) initial_world) =
    [EAlert "API Error" "Please add a valid OpenWeatherMap API key"].
Proof.
  split; [reflexivity|].
  destruct (guard_fires_exactly None valka_net valka_lat valka_lon initial_world)
    as (_ & Hfire & _).
  rewrite (Hfire eq_refl). reflexivity.
Defined.

(** X3. When the request itself fails, when the body of a successful
    response cannot be parsed, or when the body of a failed response
    cannot be read, the fetch logs exactly the error it was given, after
    the request, and changes nothing else. *)
Theorem transport_failure_logged
    (API_KEY : option string) (net : network) (lat lon : number) (e : error)
    (w : World) :
  key_rejected API_KEY = false ->
  (net (apiURL API_KEY lat lon) = Thrown e \/
   (exists resp, net (apiURL API_KEY lat lon) = Normal resp /\
                 ok resp = true /\ json resp = Thrown e) \/
   (exists resp, net (apiURL API_KEY lat lon) = Normal resp /\
                 ok resp = false /\ text resp = Thrown e)) ->
  exec (fetchWeatherData API_KEY net lat lon) w =
  emit (EConsoleError "Weather fetch error:" e)
       (emit (EFetch (apiURL API_KEY lat lon)) w).
Proof.
  intros Hk Hfail. rewrite fetch_accepted by assumption. unfold try_outcome.
  destruct Hfail as [Hnet | [(resp & Hnet & Hok & Hbody) | (resp & Hnet & Hok & Hbody)]];
    rewrite Hnet; cbn [and_then]; [reflexivity | |];
    rewrite Hok, Hbody; reflexivity.
Qed.

Lemma transport_failure_logged_witness :
  key_rejected App.API_KEY = false /\
  log (exec (App.fetchWeatherData offline_net valka_lat valka_lon) initial_world) =
    [EFetch (App.apiURL valka_lat valka_lon);
     EConsoleError "Weather fetch error:" offline_error].
Proof.
  split; [reflexivity|].
  unfold App.fetchWeatherData, App.apiURL.
  rewrite (transport_failure_logged App.API_KEY offline_net valka_lat valka_lon
                                    offline_error initial_world);
    [reflexivity | reflexivity | left; reflexivity].
Defined.

(** X4. A successful response whose body parses to a falsy value ([null],
    [false], [0], the empty string) is reported as the error
    ['Unable to retrieve weather data']: it is logged after the request
    and nothing else changes. *)
Theorem falsy_body_logged
    (API_KEY : option string) (net : network) (lat lon : number)
    (resp : Response) (data : value) (w : World) :
  key_rejected API_KEY = false ->
  net (apiURL API_KEY lat lon) = Normal resp ->
  ok resp = true ->
  json resp = Normal data ->
  truthy data = false ->
  exec (fetchWeatherData API_KEY net lat lon) w =
  emit (EConsoleError "Weather fetch error:" (Error "Unable to retrieve weather data"))
       (emit (EFetch (apiURL API_KEY lat lon)) w).
Proof.
  intros Hk Hnet Hok Hjson Hfalsy. rewrite fetch_accepted by assumption.
  unfold try_outcome. rewrite Hnet. cbn [and_then]. rewrite Hok, Hjson.
  cbn [and_then negb]. rewrite Hfalsy. reflexivity.
Qed.

Lemma falsy_body_logged_witness :
  key_rejected App.API_KEY = false /\
  truthy VNull = false /\
  app (exec (App.fetchWeatherData null_net valka_lat valka_lon) world_with_valka) =
    app world_with_valka.
Proof.
  split; [reflexivity|]. split; [reflexivity|].
  unfold App.fetchWeatherData.
  rewrite (falsy_body_logged App.API_KEY null_net valka_lat valka_lon null_response
                             VNull world_with_valka);
    reflexivity.
Defined.

(** X5. Only two things in the body are required.  When the response is
    successful, its body is truthy, [main.temp] is a number and
    [weather[0]] is neither [undefined] nor [null], the fetch stores a
    record and logs nothing: the place is [name] when that is truthy and
    ['Unknown Location'] otherwise, and pressure, humidity and description
    are whatever the body holds there, [undefined] included. *)
Theorem well_formed_body_stored
    (API_KEY : option string) (net : network) (lat lon t : number)
    (resp : Response) (data : value) (w : World) :
  key_rejected API_KEY = false ->
  net (apiURL API_KEY lat lon) = Normal resp ->
  ok resp = true ->
  json resp = Normal data ->
  truthy data = true ->
  member (member data "main") "temp" = VNumber t ->
  nullish (first (member data "weather")) = false ->
  exists la lo te,
    toFixed 4 lat = Some la /\ toFixed 4 lon = Some lo /\ toFixed 2 t = Some te /\
    exec (fetchWeatherData API_KEY net lat lon) w =
    with_app (store_record (built_record data la lo te))
             (emit (EFetch (apiURL API_KEY lat lon)) w).
Proof.
  intros Hk Hnet Hok Hjson Htruthy Htemp Hw0.
  destruct (number_toFixed_some lat 4 ltac:(lia)) as (la & Hla & _).
  destruct (number_toFixed_some lon 4 ltac:(lia)) as (lo & Hlo & _).
  destruct (number_toFixed_some t 2 ltac:(lia)) as (te & Hte & _).
  exists la, lo, te. repeat (split; [assumption|]).
  rewrite fetch_accepted by assumption.
  unfold try_outcome. rewrite Hnet. cbn [and_then]. rewrite Hok, Hjson.
  cbn [and_then negb]. rewrite Htruthy.
  assert (Hrec : weatherRecord lat lon data = Normal (built_record data la lo te)).
  { apply weatherRecord_iff; [assumption|]. exists t, la, lo, te. auto 10. }
  rewrite Hrec. reflexivity.
Qed.

Lemma well_formed_body_stored_witness :
  key_rejected App.API_KEY = false /\
  nullish (first (member bare_body "weather")) = false /\
  weatherData (app (exec (App.fetchWeatherData bare_net valka_lat valka_lon)
                         initial_world)) = Some bare_record.
Proof.
  split; [reflexivity|]. split; [reflexivity|].
  destruct (well_formed_body_stored App.API_KEY bare_net valka_lat valka_lon
              (literal (-35) (-1)) bare_response bare_body initial_world)
    as (la & lo & te & Hla & Hlo & Hte & Hexec);
    [reflexivity .. |].
  unfold App.fetchWeatherData. rewrite Hexec.
  assert (Hvla : toFixed 4 valka_lat = Some "57.5389") by (vm_compute; reflexivity).
  assert (Hvlo : toFixed 4 valka_lon = Some "25.4257") by (vm_compute; reflexivity).
  assert (Hvte : toFixed 2 (literal (-35) (-1)) = Some "-3.50") by (vm_compute; reflexivity).
  rewrite Hvla in Hla. rewrite Hvlo in Hlo. rewrite Hvte in Hte.
  injection Hla as <-. injection Hlo as <-. injection Hte as <-.
  reflexivity.
Defined.

(** X6. Conversely, a record the fetch newly stores can only come from a
    request that went out and a successful response with a truthy body, a
    numeric [main.temp] and a [weather[0]]; it is the record built from
    that body, and its place is never a falsy value. *)
Theorem stored_record_origin
    (API_KEY : option string) (net : network) (lat lon : number) (w : World)
    (r : WeatherRecord) :
  weatherData (app (exec (fetchWeatherData API_KEY net lat lon) w)) = Some r ->
  weatherData (app w) <> Some r ->
  key_rejected API_KEY = false /\
  truthy (Weather.place r) = true /\
  exists resp data t la lo te,
    net (apiURL API_KEY lat lon) = Normal resp /\
    ok resp = true /\
    json resp = Normal data /\
    truthy data = true /\
    member (member data "main") "temp" = VNumber t /\
    nullish (first (member data "weather")) = false /\
    r = built_record data la lo te.
Proof.
  intros Hafter Hbefore.
  destruct (key_rejected API_KEY) eqn:Hk.
  { rewrite fetch_rejected in Hafter by assumption. contradiction. }
  rewrite fetch_accepted in Hafter by assumption.
  destruct (try_outcome net (apiURL API_KEY lat lon) lat lon) as [r'|e] eqn:Hout;
    [|contradiction].
  simpl in Hafter. injection Hafter as ->.
  apply try_outcome_normal in Hout as (resp & data & Hnet & Hok & Hjson & Ht & Hrec).
  apply weatherRecord_iff in Hrec as (t & la & lo & te & Htemp & Hw0 & _ & _ & _ & ->);
    [|assumption].
  split; [reflexivity|]. split.
  - unfold built_record. simpl.
    destruct (truthy (member data "name")) eqn:Hname; [assumption | reflexivity].
  - exists resp, data, t, la, lo, te. auto 10.
Qed.

Lemma stored_record_origin_witness :
  truthy (Weather.place bare_record) = true.
Proof.
  destruct (stored_record_origin App.API_KEY bare_net valka_lat valka_lon initial_world
              bare_record) as (_ & Hplace & _).
  - vm_compute. reflexivity.
  - discriminate.
  - exact Hplace.
Defined.

Lemma fetch_cases API_KEY net lat lon w :
  exec (fetchWeatherData API_KEY net lat lon) w =
    emit (EAlert "API Error" "Please add a valid OpenWeatherMap API key") w \/
  (exists r, exec (fetchWeatherData API_KEY net lat lon) w =
             with_app (store_record r) (emit (EFetch (apiURL API_KEY lat lon)) w)) \/
  (exists e, exec (fetchWeatherData API_KEY net lat lon) w =
             emit (EConsoleError "Weather fetch error:" e)
                  (emit (EFetch (apiURL API_KEY lat lon)) w)).
Proof.
  destruct (key_rejected API_KEY) eqn:Hk.
  - left. apply fetch_rejected, Hk.
  - right. rewrite fetch_accepted by assumption.
    destruct (try_outcome net (apiURL API_KEY lat lon) lat lon) as [r|e].
    + left. exists r. reflexivity.
    + right. exists e. reflexivity.
Qed.

(** X7. A fetch ends in exactly one of three ways, and each is complete:
    one alert and nothing else; one request and a stored record, with
    nothing logged; or one request, one logged error and no state change.
    There is never a second request and never a partial update. *)
Theorem fetch_three_ways
    (API_KEY : option string) (net : network) (lat lon : number) (w : World) :
  let w' := exec (fetchWeatherData API_KEY net lat lon) w in
  w' = emit (EAlert "API Error" "Please add a valid OpenWeatherMap API key") w \/
  (exists r, w' = with_app (store_record r)
                           (emit (EFetch (apiURL API_KEY lat lon)) w)) \/
  (exists e, w' = emit (EConsoleError "Weather fetch error:" e)
                       (emit (EFetch (apiURL API_KEY lat lon)) w)).
Proof. apply fetch_cases. Qed.

(** X8. What a stored record shows for a coordinate or for the
    temperature is accurate: when the number is finite and below [10^21]
    in magnitude, the text is the digits of an integer [n], the point
    before its last 4 (resp. 2) digits, with a minus sign for a negative
    number, and [n / 10^4] (resp. [n / 10^2]) is within half a unit of the
    last place of the number's magnitude. *)
Theorem displayed_numbers_accurate
    (API_KEY : option string) (net : network) (lat lon : number) (w : World)
    (r : WeatherRecord) :
  weatherData (app (exec (fetchWeatherData API_KEY net lat lon) w)) = Some r ->
  weatherData (app w) <> Some r ->
  (in_fixed_range lat = true ->
   exists n, nearest_to 4 lat n /\
             Weather.latitude r = fixed_text 4 (is_negative lat) n) /\
  (in_fixed_range lon = true ->
   exists n, nearest_to 4 lon n /\
             Weather.longitude r = fixed_text 4 (is_negative lon) n) /\
  exists t resp data,
    net (apiURL API_KEY lat lon) = Normal resp /\
    json resp = Normal data /\
    member (member data "main") "temp" = VNumber t /\
    (in_fixed_range t = true ->
     exists n, nearest_to 2 t n /\ Weather.temp r = fixed_text 2 (is_negative t) n).
Proof.
  intros Hafter Hbefore.
  destruct (key_rejected API_KEY) eqn:Hk.
  { rewrite fetch_rejected in Hafter by assumption. contradiction. }
  rewrite fetch_accepted in Hafter by assumption.
  destruct (try_outcome net (apiURL API_KEY lat lon) lat lon) as [r'|e] eqn:Hout;
    [|contradiction].
  simpl in Hafter. injection Hafter as ->.
  apply try_outcome_normal in Hout as (resp & data & Hnet & _ & Hjson & _ & Hrec).
  apply weatherRecord_normal in Hrec as (t & Htemp & Hla & Hlo & Hte).
  assert (Hshow : forall f x s, (f <= 100)%nat -> toFixed f x = Some s ->
            in_fixed_range x = true ->
            exists n, nearest_to f x n /\ s = fixed_text f (is_negative x) n).
  { intros f x s Hf Hs Hr.
    destruct (NumberFacts.toFixed_value f x Hf Hr) as (n & Hn & Hs').
    exists n. split; [exact Hn|]. unfold fixed_text. congruence. }
  split; [intros Hr; apply (Hshow 4%nat lat); [lia | assumption | assumption]|].
  split; [intros Hr; apply (Hshow 4%nat lon); [lia | assumption | assumption]|].
  exists t, resp, data. repeat (split; [assumption|]).
  intros Hr. apply (Hshow 2%nat t); [lia | assumption | assumption].
Qed.

Lemma displayed_numbers_accurate_witness :
  in_fixed_range valka_lat = true /\
  exists n, nearest_to 4 valka_lat n /\
            Weather.latitude valka_record = fixed_text 4 (is_negative valka_lat) n.
Proof.
  split; [reflexivity|].
  destruct (displayed_numbers_accurate App.API_KEY valka_net valka_lat valka_lon
              initial_world valka_record) as (Hlat & _).
  - vm_compute. reflexivity.
  - discriminate.
  - apply Hlat. reflexivity.
Defined.

(** X9. The fetch and the opening or closing of the dialog commute: the
    world is the same whether the dialog flag is set before the fetch
    runs or after it.  In particular the button handler, which fetches
    and then opens the dialog, ends as if it had opened the dialog
    first. *)
Theorem fetch_commutes_with_dialog
    (API_KEY : option string) (net : network) (lat lon : number) (b : bool)
    (w : World) :
  exec (fetchWeatherData API_KEY net lat lon) (exec (setVisible b) w) =
  exec (setVisible b) (exec (fetchWeatherData API_KEY net lat lon) w) /\
  exec (getWeather API_KEY net) w =
  exec (fetchWeatherData API_KEY net (latitude (app w)) (longitude (app w)))
       (exec showDialog w).
Proof.
  assert (Hcomm : forall la lo c,
    exec (fetchWeatherData API_KEY net la lo) (exec (setVisible c) w) =
    exec (setVisible c) (exec (fetchWeatherData API_KEY net la lo) w)).
  { intros la lo c. destruct (key_rejected API_KEY) eqn:Hk.
    - rewrite !fetch_rejected by assumption. reflexivity.
    - rewrite !fetch_accepted by assumption.
      destruct (try_outcome net (apiURL API_KEY la lo) la lo); reflexivity. }
  split; [apply Hcomm|].
  rewrite TrackerFacts.getWeather_unfold. unfold showDialog. symmetry. apply Hcomm.
Qed.

End FetcherMore.

(** * More about the tracker, the unmount and the screen *)
Module TrackerMore.
Import JSNumber JSValue Runtime Platform Component Properties Outcomes Frames.
Import TrackerFacts.
Local Open Scope string_scope.
Local Open Scope list_scope.

Lemma start_granted_failed e w :
  exec (startLocationTracking (Normal "granted") (Some e)) w =
  {| app := store_location_error ("Error tracking location: " ++ message e)%string (app w);
     log := log w ++ ERequestPermission :: removal (locationSubscription (app w)) ++
                     [EAlert "Location Error" (message e)];
     active := without (locationSubscription (app w)) (active w);
     next_id := next_id w |}.
Proof.
  unfold startLocationTracking. run_tracker.
  destruct (locationSubscription (app w)) as [h|] eqn:Href;
    unfold emit, with_app, store_location_error; simpl;
    rewrite ?Href, <- ?app_assoc; reflexivity.
Qed.

Lemma start_permission_failed e watch w :
  exec (startLocationTracking (Thrown e) watch) w =
  {| app := store_location_error ("Error tracking location: " ++ message e)%string (app w);
     log := log w ++ [ERequestPermission; EAlert "Location Error" (message e)];
     active := active w;
     next_id := next_id w |}.
Proof.
  unfold startLocationTracking. run_tracker.
  unfold emit, with_app, store_location_error; simpl.
  rewrite <- app_assoc. reflexivity.
Qed.

Lemma cleanup_exact w :
  exec cleanup w =
  {| app := app w;
     log := log w ++ removal (locationSubscription (app w));
     active := without (locationSubscription (app w)) (active w);
     next_id := next_id w |}.
Proof.
  unfold cleanup. run_tracker.
  destruct (locationSubscription (app w)) as [h|]; simpl.
  - reflexivity.
  - rewrite app_nil_r. destruct w; reflexivity.
Qed.

(** X10. When tracking cannot be set up, the failure is shown twice and
    nothing is retried.  If [watchPositionAsync] rejects after permission
    was granted, the subscription held by the ref cell has already been
    removed, the location error becomes ['Error tracking location: ']
    followed by the message, one alert carries the message, and the ref
    cell keeps the removed handle.  If the permission request itself
    rejects, the same error and alert are produced and the subscription is
    not touched. *)
Theorem tracking_failure_reported (e : error) (watch : option error) (w : World) :
  exec (startLocationTracking (Normal "granted") (Some e)) w =
  {| app := store_location_error ("Error tracking location: " ++ message e)%string (app w);
     log := log w ++ ERequestPermission :: removal (locationSubscription (app w)) ++
                     [EAlert "Location Error" (message e)];
     active := without (locationSubscription (app w)) (active w);
     next_id := next_id w |} /\
  exec (startLocationTracking (Thrown e) watch) w =
  {| app := store_location_error ("Error tracking location: " ++ message e)%string (app w);
     log := log w ++ [ERequestPermission; EAlert "Location Error" (message e)];
     active := active w;
     next_id := next_id w |}.
Proof. split; [apply start_granted_failed | apply start_permission_failed]. Qed.

(** *** What is never taken back *)

Lemma step_error_cases API_KEY a w :
  locationError (app (step API_KEY a w)) = locationError (app w) \/
  exists msg, locationError (app (step API_KEY a w)) = Some msg /\ msg <> EmptyString.
Proof.
  destruct a as [perm watch| |h lat lon net|net|]; simpl.
  - unfold startLocationTracking. run_tracker.
    destruct perm as [status|e]; simpl.
    + destruct (String.eqb status "granted"); simpl.
      * destruct (locationSubscription (app w)); simpl; destruct watch; simpl;
          solve [left; reflexivity | right; eexists; split; [reflexivity | discriminate]].
      * right. eexists. split; [reflexivity | discriminate].
    + right. eexists. split; [reflexivity | discriminate].
  - left. rewrite cleanup_keeps_app. reflexivity.
  - left. destruct (decide (h ∈ active w)); [|reflexivity].
    rewrite locationCallback_unfold.
    destruct (fetchWeatherData_frame API_KEY net lat lon
                (exec (setLongitude lon) (exec (setLatitude lat) w)))
      as (_ & _ & _ & He & _).
    rewrite He. reflexivity.
  - left. rewrite getWeather_unfold.
    destruct (fetchWeatherData_frame API_KEY net (latitude (app w)) (longitude (app w)) w)
      as (_ & _ & _ & He & _).
    rewrite <- He. reflexivity.
  - left. reflexivity.
Qed.

Lemma run_snoc API_KEY tr a w :
  run API_KEY (tr ++ [a]) w = step API_KEY a (run API_KEY tr w).
Proof. unfold run. rewrite foldl_app. reflexivity. Qed.

Lemma run_error_nonempty API_KEY tr :
  locationError (app (run API_KEY tr initial_world)) <> Some EmptyString.
Proof.
  induction tr as [|a tr IH] using rev_ind; [discriminate|].
  rewrite run_snoc.
  destruct (step_error_cases API_KEY a (run API_KEY tr initial_world))
    as [Hsame | (msg & Hmsg & Hne)].
  - rewrite Hsame. exact IH.
  - rewrite Hmsg. congruence.
Qed.

Lemma run_error_kept API_KEY tr w :
  locationError (app w) <> None -> locationError (app (run API_KEY tr w)) <> None.
Proof.
  revert w. induction tr as [|a tr IH]; intros w Hset; simpl; [assumption|].
  apply IH. destruct (step_error_cases API_KEY a w) as [Hsame | (msg & Hmsg & _)].
  - rewrite Hsame. exact Hset.
  - rewrite Hmsg. discriminate.
Qed.

(** X14. A location error is never cleared and never empty: once a start
    has failed or been denied, every later state still holds an error
    message, whatever happens next (a later successful start included),
    and in every state the component can reach the error line on the
    screen is exactly the stored message. *)
Theorem location_error_persists (API_KEY : option string) (tr tr' : list action) :
  let w := run API_KEY tr initial_world in
  Screen.error_text (Screen.render (app w)) = locationError (app w) /\
  (locationError (app w) <> None ->
   locationError (app (run API_KEY tr' w)) <> None).
Proof.
  intros w. split; [|apply run_error_kept].
  pose proof (run_error_nonempty API_KEY tr) as Hne. fold w in Hne.
  simpl. destruct (locationError (app w)) as [msg|]; simpl; [|reflexivity].
  destruct (String.eqb_spec msg EmptyString) as [->|_]; [congruence | reflexivity].
Qed.

Lemma location_error_persists_witness :
  locationError (app (App.run [Start (Normal "denied") None] initial_world)) <> None /\
  locationError (app (App.run [Start (Normal "granted") None]
                        (App.run [Start (Normal "denied") None] initial_world))) <> None.
Proof.
  assert (Hset : locationError
            (app (App.run [Start (Normal "denied") None] initial_world)) <> None)
    by discriminate.
  split; [exact Hset|].
  apply (location_error_persists App.API_KEY [Start (Normal "denied") None]
                                 [Start (Normal "granted") None]).
  exact Hset.
Defined.

Lemma step_weather_cases API_KEY a w :
  weatherData (app (step API_KEY a w)) = weatherData (app w) \/
  exists r, weatherData (app (step API_KEY a w)) = Some r.
Proof.
  assert (Hfetch : forall net lat lon v,
    weatherData (app (exec (fetchWeatherData API_KEY net lat lon) v)) =
      weatherData (app v) \/
    exists r, weatherData (app (exec (fetchWeatherData API_KEY net lat lon) v)) = Some r).
  { intros net lat lon v.
    destruct (FetcherMore.fetch_cases API_KEY net lat lon v)
      as [-> | [(r & ->) | (e & ->)]]; [left | right; exists r | left]; reflexivity. }
  destruct a as [perm watch| |h lat lon net|net|]; simpl.
  - left. apply start_keeps_view.
  - left. rewrite cleanup_keeps_app. reflexivity.
  - destruct (decide (h ∈ active w)); [|left; reflexivity].
    rewrite locationCallback_unfold.
    apply (Hfetch net lat lon (exec (setLongitude lon) (exec (setLatitude lat) w))).
  - rewrite getWeather_unfold.
    apply (Hfetch net (latitude (app w)) (longitude (app w)) w).
  - left. reflexivity.
Qed.

(** X15. A weather record is never taken back: once some record is
    stored, every later state holds a record (the same or a newer one),
    whatever the fetches that follow return, so the dialog never goes
    back to being empty. *)
Theorem weather_record_persists
    (API_KEY : option string) (tr : list action) (w : World) :
  weatherData (app w) <> None ->
  weatherData (app (run API_KEY tr w)) <> None /\
  Screen.dialog_lines (Screen.render (app (run API_KEY tr w))) <> None.
Proof.
  intros Hset.
  assert (Hkept : weatherData (app (run API_KEY tr w)) <> None).
  { revert w Hset. induction tr as [|a tr IH]; intros w Hset; simpl; [assumption|].
    apply IH. destruct (step_weather_cases API_KEY a w) as [Hsame | (r & Hr)].
    - rewrite Hsame. exact Hset.
    - rewrite Hr. discriminate. }
  split; [exact Hkept|]. simpl.
  destruct (weatherData (app (run API_KEY tr w))); [discriminate | contradiction].
Qed.

Lemma weather_record_persists_witness :
  weatherData (app world_with_valka) <> None /\
  weatherData (app (App.run [PressShowWeather unauthorized_net; Dismiss]
                            world_with_valka)) <> None.
Proof.
  assert (Hset : weatherData (app world_with_valka) <> None) by discriminate.
  split; [exact Hset|].
  apply (weather_record_persists App.API_KEY
           [PressShowWeather unauthorized_net; Dismiss] world_with_valka Hset).
Defined.

(** X16. A position update delivered for a live subscription replaces the
    coordinates, so the map is centred on the new position with the fixed
    span, and runs the fetch for the new position; the dialog flag, the
    location error and the subscription are as they were.  With a key
    that passes the guard the request names the new position, and a press
    of the button afterwards fetches for it again. *)
Theorem position_update_moves_map
    (API_KEY : option string) (h : nat) (lat lon : number) (net : network)
    (w : World) :
  h ∈ active w ->
  let w1 := step API_KEY (Position h lat lon net) w in
  latitude (app w1) = lat /\
  longitude (app w1) = lon /\
  Screen.region (Screen.render (app w1)) =
    Screen.Region.Build lat lon (literal 922 (-4)) (literal 421 (-4)) /\
  visible (app w1) = visible (app w) /\
  locationError (app w1) = locationError (app w) /\
  locationSubscription (app w1) = locationSubscription (app w) /\
  active w1 = active w /\
  (key_rejected API_KEY = false ->
   exists rest, log w1 = log w ++ EFetch (apiURL API_KEY lat lon) :: rest) /\
  forall net',
    step API_KEY (PressShowWeather net') w1 =
    exec showDialog (exec (fetchWeatherData API_KEY net' lat lon) w1).
Proof.
  intros Hlive w1. subst w1. simpl.
  destruct (decide (h ∈ active w)) as [_|Hno]; [|contradiction].
  rewrite locationCallback_unfold.
  set (v := exec (setLongitude lon) (exec (setLatitude lat) w)).
  destruct (fetchWeatherData_frame API_KEY net lat lon v)
    as (Hla & Hlo & Hvis & Herr & Href & Hact & _).
  assert (Hlat : latitude (app (exec (fetchWeatherData API_KEY net lat lon) v)) = lat)
    by (rewrite Hla; reflexivity).
  assert (Hlon : longitude (app (exec (fetchWeatherData API_KEY net lat lon) v)) = lon)
    by (rewrite Hlo; reflexivity).
  split; [exact Hlat|]. split; [exact Hlon|].
  split; [unfold Screen.render; simpl; rewrite Hlat, Hlon; reflexivity|].
  split; [rewrite Hvis; reflexivity|].
  split; [rewrite Herr; reflexivity|].
  split; [rewrite Href; reflexivity|].
  split; [rewrite Hact; reflexivity|].
  split.
  - intros Hk.
    destruct (FetcherFacts.accepted_key_log API_KEY net lat lon v Hk) as (rest & Hlog & _).
    exists rest. exact Hlog.
  - intros net'. rewrite getWeather_unfold, Hlat, Hlon. reflexivity.
Qed.

Lemma position_update_moves_map_witness :
  0%nat ∈ active tracking_world /\
  latitude (app (App.step (Position 0 valka_lat valka_lon valka_net) tracking_world)) =
    valka_lat.
Proof.
  assert (Hlive : 0%nat ∈ active tracking_world).
  { change (active tracking_world) with (∅ ∪ {[ 0%nat ]} : gset nat).
    apply elem_of_union_r, elem_of_singleton. reflexivity. }
  split; [exact Hlive|].
  apply (position_update_moves_map App.API_KEY 0%nat valka_lat valka_lon valka_net
                                   tracking_world Hlive).
Defined.

End TrackerMore.

(** * The tracker on the event loop *)
Module EventLoopFacts.
Import JSNumber JSValue Runtime Platform Component Properties Outcomes Frames.
Import EventLoop Schedules TrackerFacts.
Local Open Scope string_scope.
Local Open Scope list_scope.

(** *** The segments are the handlers *)

(** Resuming each suspension of a start at once is running
    [startLocationTracking]. *)
Lemma start_cut perm watch w :
  exec (start_whole perm watch) w = exec (startLocationTracking perm watch) w.
Proof.
  unfold start_whole, start_to_permission, start_from_permission, start_from_watch,
    catch_tracking, startLocationTracking.
  run_tracker.
  destruct perm as [status|e]; simpl; [|reflexivity].
  destruct (String.eqb status "granted"); simpl; [|reflexivity].
  destruct (locationSubscription (app w)); simpl; destruct watch; reflexivity.
Qed.

(** Resuming each suspension of a fetch at once, with the answer of the
    network, is running [fetchWeatherData]; nothing is left suspended. *)
Lemma fetch_cut API_KEY net lat lon w :
  fetch_whole API_KEY net lat lon w =
  (Normal None, exec (fetchWeatherData API_KEY net lat lon) w).
Proof.
  unfold fetch_whole, and_resume, fetch_to_response, fetchWeatherData.
  destruct (key_rejected API_KEY); [reflexivity|].
  unfold resume_fetch, fetch_from_response, fetch_from_text, fetch_from_json, catch_fetch.
  FetcherFacts.run_handler.
  generalize (apiURL API_KEY lat lon) as url; intros url.
  destruct (net url) as [response|e]; simpl; [|reflexivity].
  destruct (ok response); simpl.
  - destruct (json response) as [data|e]; simpl; [|reflexivity].
    destruct (truthy data); simpl; [|reflexivity].
    destruct (weatherRecord lat lon data); reflexivity.
  - destruct (text response); reflexivity.
Qed.

(** *** Entries that leave the subscriptions alone *)

Lemma quiet_emit e w : quiet e = true -> quiet_extension w (emit e w).
Proof. intros Hq. split; [|auto]. exists [e]. simpl. rewrite Hq. auto. Qed.

Lemma quiet_with_app f w :
  (forall a, locationSubscription (f a) = locationSubscription a) ->
  quiet_extension w (with_app f w).
Proof.
  intros Hf. split; [|simpl; auto]. exists []. simpl. rewrite app_nil_r. auto.
Qed.

Ltac quiet_step :=
  first
    [ apply (respects_ret quiet_extension)
    | apply (respects_read quiet_extension)
    | apply (respects_modify quiet_extension); intros ?;
      first [ apply quiet_emit; reflexivity | apply quiet_with_app; reflexivity ]
    | apply (respects_bind quiet_extension); [|intros ?] ].

Ltac quiet_auto := repeat quiet_step.

Lemma catch_fetch_quiet error : respects quiet_extension (catch_fetch error).
Proof. unfold catch_fetch, console_error. quiet_auto. Qed.

Lemma fetch_to_response_quiet API_KEY lat lon :
  respects quiet_extension (fetch_to_response API_KEY lat lon).
Proof.
  unfold fetch_to_response, Alert_alert. destruct (key_rejected API_KEY); quiet_auto.
Qed.

Lemma fetch_from_response_quiet lat lon answer :
  respects quiet_extension (fetch_from_response lat lon answer).
Proof.
  unfold fetch_from_response, catch_fetch, console_error.
  destruct answer as [response|e]; [destruct (negb (ok response))|]; quiet_auto.
Qed.

Lemma fetch_from_text_quiet response :
  respects quiet_extension (fetch_from_text response).
Proof.
  unfold fetch_from_text, catch_fetch, console_error.
  destruct (text response); quiet_auto.
Qed.

Lemma fetch_from_json_quiet lat lon response :
  respects quiet_extension (fetch_from_json lat lon response).
Proof.
  unfold fetch_from_json, setWeatherData, catch_fetch, console_error.
  destruct (json response) as [data|e];
    [destruct (truthy data); [destruct (weatherRecord lat lon data)|]|]; quiet_auto.
Qed.

Lemma callback_to_response_quiet API_KEY lat lon :
  respects quiet_extension (callback_to_response API_KEY lat lon).
Proof.
  unfold callback_to_response, setLatitude, setLongitude.
  apply (respects_bind quiet_extension); [quiet_auto | intros _].
  apply (respects_bind quiet_extension); [quiet_auto | intros _].
  apply fetch_to_response_quiet.
Qed.

Lemma getWeather_to_response_quiet API_KEY :
  respects quiet_extension (getWeather_to_response API_KEY).
Proof.
  unfold getWeather_to_response, showDialog, setVisible.
  apply (respects_bind quiet_extension); [quiet_auto | intros lat].
  apply (respects_bind quiet_extension); [quiet_auto | intros lon].
  apply (respects_bind quiet_extension); [apply fetch_to_response_quiet | intros t].
  quiet_auto.
Qed.

(** *** The invariant of serial starts *)

Lemma tracked_size l live ref : tracked l live ref -> (size live <= 1)%nat.
Proof.
  intros (Ho & Hr & _). rewrite <- Hr. apply (Ho l []). rewrite app_nil_r. reflexivity.
Qed.

(** Removing any handle keeps the history orderly. *)
Lemma tracked_remove_any l live ref h :
  tracked l live ref -> tracked (l ++ [ERemove h]) (live ∖ {[ h ]}) ref.
Proof.
  intros Ht. pose proof (tracked_size _ _ _ Ht) as Hsize.
  destruct Ht as (Ho & Hr & Href).
  assert (Hreplay : replay (l ++ [ERemove h]) = live ∖ {[ h ]}).
  { rewrite replay_snoc. simpl. congruence. }
  split; [|split; [exact Hreplay|]].
  - apply orderly_snoc; [assumption | | intros ? [=]].
    rewrite Hreplay.
    assert (Hsub : live ∖ {[ h ]} ⊆ live).
    { intros x Hx. apply elem_of_difference in Hx as [Hx _]. exact Hx. }
    apply subseteq_size in Hsub. lia.
  - intros x Hx. apply Href. apply elem_of_difference in Hx as [Hx _]. exact Hx.
Qed.

Lemma tracked_removal l live ref ref' :
  tracked l live ref -> tracked (l ++ removal ref') (without ref' live) ref.
Proof.
  intros Ht. destruct ref' as [h|]; simpl.
  - apply tracked_remove_any, Ht.
  - rewrite app_nil_r. exact Ht.
Qed.

Lemma idle_removal l live ref' :
  idle l live -> idle (l ++ removal ref') (without ref' live).
Proof.
  intros Hi. apply tracked_none, tracked_removal, idle_tracked, Hi.
Qed.

Lemma steady_quiet (m : Machine) (w' : World) (fs : list fetch_task) :
  quiet_extension (world m) w' -> steady m ->
  steady {| world := w'; starts := starts m; fetches := fs |}.
Proof.
  intros [[evs [Hlog Hq]] (Href & Hact & Hnext)] [Hphase Hfresh].
  split; simpl.
  - unfold phase_ok in *. rewrite Hlog, Href, Hact, Hnext.
    destruct (starts m) as [|[|[id|e]] [|]]; try contradiction.
    + apply tracked_quiet_app; assumption.
    + apply tracked_quiet_app; assumption.
    + destruct Hphase as (Ht & Hlive & Hne & Hlt).
      split; [apply tracked_quiet_app; assumption | auto].
    + apply tracked_none, tracked_quiet_app; [apply idle_tracked, Hphase | assumption].
  - rewrite Href, Hnext. exact Hfresh.
Qed.

Lemma run_fetch_steady (segment : M (option fetch_task)) others m :
  respects quiet_extension segment -> steady m ->
  steady (run_fetch segment others m).
Proof.
  intros Hseg Hm. unfold run_fetch. specialize (Hseg (world m)). unfold exec in Hseg.
  destruct (segment (world m)) as [r w']. simpl in Hseg.
  apply (steady_quiet m w' _ Hseg Hm).
Qed.

(** With the invariant, at most one start is suspended. *)
Lemma steady_one_start m i t :
  steady m -> starts m !! i = Some t -> starts m = [t] /\ i = 0%nat.
Proof.
  intros [Hphase _] Hi. unfold phase_ok in Hphase.
  destruct (starts m) as [|t0 [|t1 rest]].
  - discriminate.
  - destruct i; simpl in Hi; [injection Hi as ->; auto | discriminate].
  - destruct t0 as [|[id|e]]; contradiction.
Qed.

Lemma initial_steady : steady initial_machine.
Proof.
  split; simpl.
  - split; [apply orderly_nil|]. split; [reflexivity|].
    intros h Hh. apply not_elem_of_empty in Hh. contradiction.
  - intros h [=].
Qed.

Lemma unmount_steady m :
  steady m ->
  steady {| world := exec cleanup (world m); starts := starts m; fetches := fetches m |}.
Proof.
  intros [Hphase Hfresh]. rewrite TrackerMore.cleanup_exact. split; simpl; [|exact Hfresh].
  unfold phase_ok in *. simpl.
  destruct (starts m) as [|[|[id|e]] [|]]; try contradiction.
  - apply tracked_removal, Hphase.
  - apply tracked_removal, Hphase.
  - destruct Hphase as (Ht & Hlive & Hne & Hlt).
    split; [apply tracked_removal, Ht|]. split; [|auto].
    destruct (locationSubscription (app (world m))) as [h|]; simpl; [|exact Hlive].
    rewrite Hlive. apply leibniz_equiv. intros x.
    rewrite elem_of_difference, !elem_of_singleton. split; [tauto|].
    intros ->. split; [reflexivity | congruence].
  - apply idle_removal, Hphase.
Qed.

Lemma start_invoked_steady m :
  steady m -> starts m = [] ->
  steady (run_start start_to_permission (starts m) m).
Proof.
  intros [Hphase Hfresh] Hnone. rewrite Hnone in *. unfold run_start, start_to_permission.
  run_tracker. split; simpl; [|exact Hfresh].
  apply tracked_quiet; [exact Hphase | reflexivity].
Qed.

Lemma permission_settled_steady perm watch m :
  steady m -> starts m = [AwaitsPermission] ->
  steady (run_start (start_from_permission perm watch) [] m).
Proof.
  intros [Hphase Hfresh] Hone. rewrite Hone in Hphase. simpl in Hphase.
  unfold run_start, start_from_permission, catch_tracking. run_tracker.
  destruct perm as [status|e]; simpl.
  2:{ split; simpl; [|exact Hfresh]. apply tracked_quiet; [exact Hphase | reflexivity]. }
  destruct (String.eqb status "granted"); simpl.
  2:{ split; simpl; [exact Hphase | exact Hfresh]. }
  pose proof (tracked_removal _ _ _ (locationSubscription (app (world m))) Hphase)
    as Hremoved.
  assert (Hidle : idle (log (world m) ++ removal (locationSubscription (app (world m))))
                       (without (locationSubscription (app (world m)))
                                (active (world m)))).
  { destruct (locationSubscription (app (world m))) as [h|]; simpl in *.
    - apply tracked_remove, Hphase.
    - apply tracked_none, Hremoved. }
  destruct (locationSubscription (app (world m))) as [h|] eqn:Href; simpl in *;
    rewrite ?app_nil_r in Hidle;
    destruct watch as [e|]; simpl; unfold steady, phase_ok; simpl;
    (split; [|intros h0 Hh0; rewrite ?Href in Hh0; apply Hfresh in Hh0; lia]).
  - exact Hidle.
  - destruct Hidle as (Ho & Hr & Hempty).
    split; [apply idle_watch; split; [|split]; assumption|].
    split; [rewrite Hempty; apply union_empty_l_L|].
    split; [|lia]. rewrite Href. intros [= Heq]. specialize (Hfresh h eq_refl). lia.
  - exact Hidle.
  - destruct Hidle as (Ho & Hr & Hempty).
    split; [apply idle_watch; split; [|split]; assumption|].
    split; [rewrite Hempty; apply union_empty_l_L|].
    split; [rewrite Href; discriminate | lia].
Qed.

Lemma watch_settled_steady settles m :
  steady m -> starts m = [AwaitsWatch settles] ->
  steady (run_start (start_from_watch settles) [] m).
Proof.
  intros [Hphase Hfresh] Hone. rewrite Hone in Hphase. simpl in Hphase.
  unfold run_start, start_from_watch, catch_tracking. run_tracker.
  destruct settles as [id|e]; simpl.
  - destruct Hphase as (Ht & Hlive & Hne & Hlt).
    split; simpl; [exact Ht|]. intros h [= <-]. exact Hlt.
  - split; simpl; [|exact Hfresh].
    apply tracked_quiet; [apply idle_tracked, Hphase | reflexivity].
Qed.

Lemma step_steady API_KEY e m :
  steady m -> (is_start e = true -> starts m = []) ->
  steady (step API_KEY e m).
Proof.
  intros Hm Hserial.
  destruct e as [| |h lat lon| | |i perm watch|i|i answer|i]; simpl.
  - apply start_invoked_steady; auto.
  - apply unmount_steady, Hm.
  - destruct (decide (h ∈ active (world m))); [|exact Hm].
    apply run_fetch_steady; [apply callback_to_response_quiet | exact Hm].
  - apply run_fetch_steady; [apply getWeather_to_response_quiet | exact Hm].
  - destruct m as [w ss fs]. apply (steady_quiet {| world := w; starts := ss; fetches := fs |});
      [|exact Hm].
    apply quiet_with_app. reflexivity.
  - destruct (starts m !! i) as [[|s]|] eqn:Hi; try exact Hm.
    destruct (steady_one_start m i _ Hm Hi) as [Hone ->]. rewrite Hone. simpl.
    apply permission_settled_steady; assumption.
  - destruct (starts m !! i) as [[|s]|] eqn:Hi; try exact Hm.
    destruct (steady_one_start m i _ Hm Hi) as [Hone ->]. rewrite Hone. simpl.
    apply watch_settled_steady; assumption.
  - destruct (fetches m !! i) as [[lat lon|r|lat lon r]|]; try exact Hm.
    apply run_fetch_steady; [apply fetch_from_response_quiet | exact Hm].
  - destruct (fetches m !! i) as [[lat lon|r|lat lon r]|]; try exact Hm.
    + apply run_fetch_steady; [apply fetch_from_text_quiet | exact Hm].
    + apply run_fetch_steady; [apply fetch_from_json_quiet | exact Hm].
Qed.

Lemma run_steady API_KEY schedule m :
  steady m -> serial API_KEY schedule m = true -> steady (run API_KEY schedule m).
Proof.
  revert m. induction schedule as [|e rest IH]; intros m Hm Hs; simpl; [exact Hm|].
  simpl in Hs.
  assert (Hok : (is_start e = true -> starts m = []) /\
                serial API_KEY rest (step API_KEY e m) = true).
  { destruct e; simpl; try (split; [discriminate | exact Hs]).
    destruct (starts m) eqn:Hst; [|discriminate].
    split; [reflexivity|]. unfold step in Hs. rewrite Hst in Hs. exact Hs. }
  destruct Hok as [Hstart Hrest].
  apply IH; [apply step_steady; assumption | exact Hrest].
Qed.

Lemma steady_orderly m : steady m -> orderly (log (world m)).
Proof.
  intros [Hphase _]. unfold phase_ok in Hphase.
  destruct (starts m) as [|[|[id|e]] [|]]; try contradiction;
    first [apply Hphase | apply (proj1 Hphase)].
Qed.

(** *** Entries that touch no subscription *)

Lemma run_fetch_calm (segment : M (option fetch_task)) others m :
  respects quiet_extension segment ->
  starts (run_fetch segment others m) = starts m /\
  active (world (run_fetch segment others m)) = active (world m).
Proof.
  intros Hseg. unfold run_fetch. specialize (Hseg (world m)). unfold exec in Hseg.
  destruct (segment (world m)) as [r w']. simpl in *.
  destruct Hseg as (_ & _ & Hact & _). auto.
Qed.

(** With no start suspended, an entry that neither starts tracking nor
    runs the cleanup leaves the live subscriptions as they are, and
    leaves no start suspended. *)
Lemma calm_step API_KEY e m :
  starts m = [] -> disturbs e = false ->
  starts (step API_KEY e m) = [] /\
  active (world (step API_KEY e m)) = active (world m).
Proof.
  intros Hnone Hcalm.
  destruct e as [| |h lat lon| | |i perm watch|i|i answer|i]; simpl;
    try discriminate.
  - destruct (decide (h ∈ active (world m))); [|auto].
    destruct (run_fetch_calm (callback_to_response API_KEY lat lon) (fetches m) m
                (callback_to_response_quiet API_KEY lat lon)) as [-> ->]. auto.
  - destruct (run_fetch_calm (getWeather_to_response API_KEY) (fetches m) m
                (getWeather_to_response_quiet API_KEY)) as [-> ->]. auto.
  - auto.
  - rewrite Hnone. simpl. auto.
  - rewrite Hnone. simpl. auto.
  - destruct (fetches m !! i) as [[lat lon|r|lat lon r]|]; auto.
    destruct (run_fetch_calm (fetch_from_response lat lon answer)
                (delete i (fetches m)) m (fetch_from_response_quiet lat lon answer))
      as [-> ->]. auto.
  - destruct (fetches m !! i) as [[lat lon|r|lat lon r]|]; auto.
    + destruct (run_fetch_calm (fetch_from_text r) (delete i (fetches m)) m
                  (fetch_from_text_quiet r)) as [-> ->]. auto.
    + destruct (run_fetch_calm (fetch_from_json lat lon r) (delete i (fetches m)) m
                  (fetch_from_json_quiet lat lon r)) as [-> ->]. auto.
Qed.

Lemma calm_run API_KEY later m :
  starts m = [] -> existsb disturbs later = false ->
  starts (run API_KEY later m) = [] /\
  active (world (run API_KEY later m)) = active (world m).
Proof.
  revert m. induction later as [|e rest IH]; intros m Hnone Hcalm; simpl; [auto|].
  simpl in Hcalm. apply orb_false_iff in Hcalm as [He Hrest].
  destruct (calm_step API_KEY e m Hnone He) as [Hs Ha].
  destruct (IH (step API_KEY e m) Hs Hrest) as [Hs' Ha'].
  split; [exact Hs' | congruence].
Qed.

Lemma released_run API_KEY later m :
  starts m = [] -> active (world m) = ∅ -> existsb is_start later = false ->
  starts (run API_KEY later m) = [] /\ active (world (run API_KEY later m)) = ∅.
Proof.
  revert m. induction later as [|e rest IH]; intros m Hnone Hempty Hcalm; simpl; [auto|].
  simpl in Hcalm. apply orb_false_iff in Hcalm as [He Hrest].
  apply IH; [| |exact Hrest].
  - destruct (disturbs e) eqn:Hd; [|apply (calm_step API_KEY e m Hnone Hd)].
    destruct e; try discriminate. simpl. exact Hnone.
  - destruct (disturbs e) eqn:Hd.
    + destruct e; try discriminate. simpl. rewrite TrackerMore.cleanup_exact. simpl.
      rewrite Hempty. destruct (locationSubscription (app (world m))); simpl;
        [apply difference_diag_L || (apply leibniz_equiv; intros x;
           rewrite elem_of_difference; split; [intros [Hx _]; exact Hx |
           intros Hx; apply not_elem_of_empty in Hx; contradiction]) | reflexivity].
    + destruct (calm_step API_KEY e m Hnone Hd) as [_ ->]. exact Hempty.
Qed.

Lemma reachable_steady API_KEY schedule :
  serial API_KEY schedule initial_machine = true ->
  steady (run API_KEY schedule initial_machine).
Proof. intros Hs. apply run_steady; [apply initial_steady | exact Hs]. Qed.

(** C7, as stated, fails: when tracking is started a second time while
    the first start is still suspended at its permission request, both
    starts find the ref cell empty, neither removes anything, and both
    subscriptions are set up: two are live at once. *)
Lemma overlapping_starts_two_subscriptions :
  log (world (run App.API_KEY overlapping_starts initial_machine)) =
    [ERequestPermission; ERequestPermission; EWatch 0; EWatch 1] /\
  size (active (world (run App.API_KEY overlapping_starts initial_machine))) = 2%nat /\
  ~ (size (replay (log (world (run App.API_KEY overlapping_starts initial_machine))))
     <= 1)%nat.
Proof.
  split; [reflexivity|].
  assert (Hlive : active (world (run App.API_KEY overlapping_starts initial_machine)) =
                  ({[ 0%nat ]} ∪ {[ 1%nat ]} : gset nat)).
  { change (active (world (run App.API_KEY overlapping_starts initial_machine)))
      with ((∅ ∪ {[ 0%nat ]}) ∪ {[ 1%nat ]} : gset nat).
    rewrite union_empty_l_L. reflexivity. }
  assert (Hreplay : replay (log (world (run App.API_KEY overlapping_starts
                                            initial_machine))) =
                    ({[ 0%nat ]} ∪ {[ 1%nat ]} : gset nat)).
  { change (replay (log (world (run App.API_KEY overlapping_starts initial_machine))))
      with ((∅ ∪ {[ 0%nat ]}) ∪ {[ 1%nat ]} : gset nat).
    rewrite union_empty_l_L. reflexivity. }
  assert (Htwo : size ({[ 0%nat ]} ∪ {[ 1%nat ]} : gset nat) = 2%nat).
  { rewrite size_union.
    - rewrite !size_singleton. reflexivity.
    - intros x Hx0 Hx1. apply elem_of_singleton in Hx0, Hx1. congruence. }
  rewrite Hlive, Hreplay, Htwo. split; [reflexivity | lia].
Qed.

(** C7, amended. In every schedule of the event loop in which tracking is
    never started while an earlier start is still suspended, with the
    position callbacks, the presses, the dismissals, the unmount cleanup
    and the completions of fetches interleaved in any way with the
    suspended start, at every moment of the history at most one
    subscription is live, and whenever a subscription is started none is
    live at that moment: a start that finds a handle in the ref cell has
    removed it before. *)
Theorem serial_starts_one_subscription
    (API_KEY : option string) (schedule : list entry) (l1 l2 : list event) :
  serial API_KEY schedule initial_machine = true ->
  log (world (run API_KEY schedule initial_machine)) = l1 ++ l2 ->
  (size (replay l1) <= 1)%nat /\
  (forall id rest, l2 = EWatch id :: rest -> replay l1 = ∅).
Proof.
  intros Hs Hsplit.
  exact (steady_orderly _ (reachable_steady API_KEY schedule Hs) l1 l2 Hsplit).
Qed.

Lemma serial_starts_one_subscription_witness :
  serial App.API_KEY serial_starts initial_machine = true /\
  log (world (run App.API_KEY serial_starts initial_machine)) =
    [ERequestPermission; EWatch 0; ERequestPermission; ERemove 0] ++ [EWatch 1] /\
  (size (replay [ERequestPermission; EWatch 0; ERequestPermission; ERemove 0]) <= 1)%nat.
Proof.
  split; [reflexivity|]. split; [reflexivity|].
  apply (serial_starts_one_subscription App.API_KEY serial_starts
           [ERequestPermission; EWatch 0; ERequestPermission; ERemove 0]
           [EWatch 1] eq_refl eq_refl).
Defined.

Lemma tracked_live l live ref h :
  tracked l live ref -> h ∈ live -> ref = Some h /\ live = {[ h ]}.
Proof.
  intros (_ & _ & Href) Hlive. split; [apply Href, Hlive|].
  apply leibniz_equiv. intros x. rewrite elem_of_singleton. split.
  - intros Hx. apply Href in Hx. apply Href in Hlive. congruence.
  - intros ->. exact Hlive.
Qed.

Lemma tracked_stopped l live ref :
  tracked l live ref -> without ref live = ∅.
Proof.
  intros Ht. destruct ref as [h|]; simpl.
  - apply tracked_remove in Ht. apply Ht.
  - apply tracked_none in Ht. apply Ht.
Qed.

(** X11. A granted start whose subscription is set up goes in two steps.
    When the permission settles it removes the subscription the ref cell
    holds and starts the new one, which is live from then on although
    the ref cell does not hold it yet; when [watchPositionAsync] settles
    it stores the handle in the ref cell and changes nothing else, so an
    earlier location error stays.  In any schedule in which starts do not
    overlap, the new subscription is the only live one at both
    moments. *)
Theorem tracking_started (API_KEY : option string) (schedule : list entry) :
  serial API_KEY schedule initial_machine = true ->
  let m := run API_KEY schedule initial_machine in
  (starts m = [AwaitsPermission] ->
   let m1 := step API_KEY (PermissionSettled 0 (Normal "granted") None) m in
   app (world m1) = app (world m) /\
   log (world m1) =
     log (world m) ++ removal (locationSubscription (app (world m))) ++
     [EWatch (next_id (world m))] /\
   active (world m1) = {[ next_id (world m) ]} /\
   starts m1 = [AwaitsWatch (Normal (next_id (world m)))]) /\
  (forall id, starts m = [AwaitsWatch (Normal id)] ->
   let m2 := step API_KEY (WatchSettled 0) m in
   active (world m) = {[ id ]} /\
   app (world m2) = store_subscription id (app (world m)) /\
   log (world m2) = log (world m) /\
   active (world m2) = {[ id ]} /\
   starts m2 = []).
Proof.
  intros Hs m. pose proof (reachable_steady API_KEY schedule Hs) as [Hphase _].
  fold m in Hphase. split.
  - intros Hst m1. subst m1. rewrite Hst in Hphase. simpl in Hphase.
    pose proof (tracked_stopped _ _ _ Hphase) as Hstopped.
    simpl. rewrite Hst. simpl.
    unfold run_start, start_from_permission. run_tracker.
    destruct (locationSubscription (app (world m))) as [h|]; simpl in *;
      rewrite Hstopped, union_empty_l_L, <- ?app_assoc; auto.
  - intros id Hst m2. subst m2. rewrite Hst in Hphase. simpl in Hphase.
    destruct Hphase as (_ & Hlive & _ & _).
    simpl. rewrite Hst. simpl.
    unfold run_start, start_from_watch. run_tracker. auto.
Qed.

Lemma tracking_started_witness :
  serial App.API_KEY start_pending initial_machine = true /\
  starts (run App.API_KEY start_pending initial_machine) = [AwaitsPermission] /\
  active (world (step App.API_KEY (PermissionSettled 0 (Normal "granted") None)
                      (run App.API_KEY start_pending initial_machine))) = {[ 0%nat ]}.
Proof.
  split; [reflexivity|]. split; [reflexivity|].
  destruct (tracking_started App.API_KEY start_pending eq_refl) as [Hfirst _].
  apply (Hfirst eq_refl).
Defined.

(** X12. In any schedule in which starts do not overlap, and at any
    moment at which no start is suspended after its call of
    [watchPositionAsync], a live subscription is the one whose handle
    the ref cell holds, and it is the only live one; the live set is what
    the history of starts and removals yields. *)
Theorem live_subscription_is_held
    (API_KEY : option string) (schedule : list entry) (h : nat) :
  serial API_KEY schedule initial_machine = true ->
  let m := run API_KEY schedule initial_machine in
  starts m = [] \/ starts m = [AwaitsPermission] ->
  h ∈ active (world m) ->
  locationSubscription (app (world m)) = Some h /\
  active (world m) = {[ h ]} /\
  replay (log (world m)) = active (world m).
Proof.
  intros Hs m Hst Hlive.
  pose proof (reachable_steady API_KEY schedule Hs) as [Hphase _]. fold m in Hphase.
  assert (Ht : tracked (log (world m)) (active (world m))
                       (locationSubscription (app (world m)))).
  { destruct Hst as [Hst|Hst]; rewrite Hst in Hphase; exact Hphase. }
  destruct (tracked_live _ _ _ h Ht Hlive) as [Href Hone].
  split; [exact Href|]. split; [exact Hone | apply Ht].
Qed.

Lemma live_subscription_is_held_witness :
  serial App.API_KEY serial_starts initial_machine = true /\
  1%nat ∈ active (world (run App.API_KEY serial_starts initial_machine)) /\
  locationSubscription (app (world (run App.API_KEY serial_starts initial_machine))) =
    Some 1%nat.
Proof.
  assert (Hlive : 1%nat ∈ active (world (run App.API_KEY serial_starts
                                              initial_machine))).
  { change (active (world (run App.API_KEY serial_starts initial_machine)))
      with (((∅ ∪ {[ 0%nat ]}) ∖ {[ 0%nat ]}) ∪ {[ 1%nat ]} : gset nat).
    apply elem_of_union_r, elem_of_singleton. reflexivity. }
  split; [reflexivity|]. split; [exact Hlive|].
  apply (live_subscription_is_held App.API_KEY serial_starts 1%nat eq_refl
           (or_introl eq_refl) Hlive).
Defined.

(** X13. When the cleanup runs at a moment at which no start is
    suspended, in a schedule in which starts do not overlap, it removes
    the handle the ref cell holds (one removal, or none when the cell is
    empty) and leaves every state cell as it was; afterwards no
    subscription is live, and none becomes live again under any later
    schedule in which tracking is not started anew. *)
Theorem unmount_releases
    (API_KEY : option string) (schedule later : list entry) :
  serial API_KEY schedule initial_machine = true ->
  let m := run API_KEY schedule initial_machine in
  starts m = [] ->
  existsb is_start later = false ->
  let m' := step API_KEY Unmounted m in
  app (world m') = app (world m) /\
  log (world m') = log (world m) ++ removal (locationSubscription (app (world m))) /\
  active (world m') = ∅ /\
  active (world (run API_KEY later m')) = ∅.
Proof.
  intros Hs m Hst Hlater m'. subst m'.
  pose proof (reachable_steady API_KEY schedule Hs) as [Hphase _]. fold m in Hphase.
  rewrite Hst in Hphase. simpl in Hphase.
  pose proof (tracked_stopped _ _ _ Hphase) as Hstopped.
  assert (Hafter : active (world (step API_KEY Unmounted m)) = ∅).
  { simpl. rewrite TrackerMore.cleanup_exact. exact Hstopped. }
  split; [simpl; rewrite TrackerMore.cleanup_exact; reflexivity|].
  split; [simpl; rewrite TrackerMore.cleanup_exact; reflexivity|].
  split; [exact Hafter|].
  apply (released_run API_KEY later (step API_KEY Unmounted m)); auto.
Qed.

Lemma unmount_releases_witness :
  serial App.API_KEY serial_starts initial_machine = true /\
  starts (run App.API_KEY serial_starts initial_machine) = [] /\
  active (world (run App.API_KEY [Pressed; PositionDelivered 1 valka_lat valka_lon]
                     (step App.API_KEY Unmounted
                           (run App.API_KEY serial_starts initial_machine)))) = ∅.
Proof.
  split; [reflexivity|]. split; [reflexivity|].
  apply (unmount_releases App.API_KEY serial_starts
           [Pressed; PositionDelivered 1 valka_lat valka_lon] eq_refl eq_refl eq_refl).
Defined.

(** X17. When the cleanup runs while a start is suspended at its
    permission request, the subscription is not released: the start goes
    on, once granted, to set up its subscription, which is then live with
    no removal after it, and it stays live under every later schedule
    that contains neither another cleanup nor another start. *)
Theorem unmount_during_start_leaks
    (API_KEY : option string) (schedule later : list entry) :
  serial API_KEY schedule initial_machine = true ->
  let m := run API_KEY schedule initial_machine in
  starts m = [AwaitsPermission] ->
  existsb disturbs later = false ->
  let m' := run API_KEY [Unmounted; PermissionSettled 0 (Normal "granted") None;
                         WatchSettled 0] m in
  log (world m') =
    log (world m) ++ removal (locationSubscription (app (world m))) ++
    removal (locationSubscription (app (world m))) ++ [EWatch (next_id (world m))] /\
  active (world m') = {[ next_id (world m) ]} /\
  active (world (run API_KEY later m')) = {[ next_id (world m) ]}.
Proof.
  intros Hs m Hst Hlater m'.
  pose proof (reachable_steady API_KEY schedule Hs) as [Hphase _]. fold m in Hphase.
  rewrite Hst in Hphase. simpl in Hphase.
  pose proof (tracked_stopped _ _ _ Hphase) as Hstopped.
  assert (Hm' : log (world m') =
                  log (world m) ++ removal (locationSubscription (app (world m))) ++
                  removal (locationSubscription (app (world m))) ++
                  [EWatch (next_id (world m))] /\
                active (world m') = {[ next_id (world m) ]} /\
                starts m' = []).
  { subst m'. unfold run. simpl. rewrite TrackerMore.cleanup_exact. rewrite Hst. simpl.
    unfold run_start, start_from_permission, start_from_watch. run_tracker.
    destruct (locationSubscription (app (world m))) as [h|]; simpl in *.
    - assert (Hagain : active (world m) ∖ {[ h ]} ∖ {[ h ]} = ∅).
      { rewrite Hstopped. apply leibniz_equiv. intros x.
        rewrite elem_of_difference. split; [intros [Hx _]; exact Hx|].
        intros Hx. apply not_elem_of_empty in Hx. contradiction. }
      rewrite Hagain, union_empty_l_L, <- !app_assoc. auto.
    - rewrite Hstopped, union_empty_l_L, app_nil_r. auto. }
  destruct Hm' as (Hlog & Hact & Hnone).
  split; [exact Hlog|]. split; [exact Hact|].
  destruct (calm_run API_KEY later m' Hnone Hlater) as [_ ->]. exact Hact.
Qed.

Lemma unmount_during_start_leaks_witness :
  serial App.API_KEY start_pending initial_machine = true /\
  starts (run App.API_KEY start_pending initial_machine) = [AwaitsPermission] /\
  active (world (run App.API_KEY [Pressed; Dismissed]
                     (run App.API_KEY [Unmounted;
                                       PermissionSettled 0 (Normal "granted") None;
                                       WatchSettled 0]
                          (run App.API_KEY start_pending initial_machine)))) =
    {[ 0%nat ]}.
Proof.
  split; [reflexivity|]. split; [reflexivity|].
  apply (unmount_during_start_leaks App.API_KEY start_pending [Pressed; Dismissed]
           eq_refl eq_refl eq_refl).
Defined.

End EventLoopFacts.
